(** * yep: method-override chains, the SQL query compiler and the views registry

    A shallow embedding of [yep/models/methods.go], [yep/models/queries.go]
    and of the views collection of package [ir], together with the
    properties the specification states about them.

    Go panics ([tools.LogAndPanic]) are modelled by an outcome type; Go
    pointers by locations of an explicit store; Go maps by finite maps. *)

From stdpp Require Import gmap strings list fin_maps.
From Stdlib Require Import ZArith Lia Ascii DecimalString.

Set Warnings "-register-all".

Local Open Scope string_scope.
Local Open Scope list_scope.
Local Open Scope stdpp_scope.

(** ** Outcomes: a value, or a panic carrying its log message *)

Inductive outcome (A : Type) : Type :=
| Ok (a : A)
| Panic (msg : string).
Arguments Ok {A} a.
Arguments Panic {A} msg.

Definition isPanic {A} (o : outcome A) : bool :=
  match o with Ok _ => false | Panic _ => true end.

(** What the Go runtime reports when a nil pointer is dereferenced. *)
Definition nilDereference : string :=
  "invalid memory address or nil pointer dereference".

(** * The method registry ([methods.go]) *)

Module Methods.

(** ** Reflection values *)

(** Go types, as far as [newMethodInfo] looks at them: the [RecordSet]
    interface type, or some other type known by its identity. *)
Inductive goType : Type :=
| RecordSetType
| NamedType (id : nat).

(** [reflect.Type] of a function: its parameter and result types. *)
Record funcType : Type := FuncType {
  ins : list goType;
  outs : list goType
}.

(** [reflect.ValueOf(fnct)]: a function (its code identity and type), or a
    value of another kind. *)
Inductive reflectValue : Type :=
| FuncValue (code : nat) (ty : funcType)
| OtherValue (kind : nat).

Global Instance goType_eq_dec : EqDecision goType.
Proof. solve_decision. Defined.
Global Instance funcType_eq_dec : EqDecision funcType.
Proof. solve_decision. Defined.
Global Instance reflectValue_eq_dec : EqDecision reflectValue.
Proof. solve_decision. Defined.

Global Instance goType_countable : Countable goType.
Proof.
  refine (inj_countable'
    (fun t => match t with RecordSetType => None | NamedType n => Some n end)
    (fun o => match o with None => RecordSetType | Some n => NamedType n end) _).
  by intros [].
Defined.
Global Instance funcType_countable : Countable funcType.
Proof.
  refine (inj_countable' (fun t => (ins t, outs t))
            (fun p => FuncType p.1 p.2) _).
  by intros [].
Defined.
Global Instance reflectValue_countable : Countable reflectValue.
Proof.
  refine (inj_countable'
    (fun v => match v with FuncValue c t => inl (c, t) | OtherValue k => inr k end)
    (fun e => match e with inl (c, t) => FuncValue c t | inr k => OtherValue k end) _).
  by intros [].
Defined.

(** ** The store *)

(** A location of the store; a Go pointer is [option loc], [None] being nil. *)
Abbreviation loc := nat.

(** [methodLayer]: one function defined in a module. *)
Record methodLayer : Type := MethodLayer {
  methInfo : loc;
  funcValue : reflectValue
}.

(** [methodInfo]. The owning model [mi] is referred to by its registry key. *)
Record methodInfo : Type := MethodInfo {
  name : string;
  mi : string;
  methodType : funcType;
  topLayer : option loc;
  nextLayer : gmap (option loc) (option loc)
}.

(** [methodsCollection]. *)
Record methodsCollection : Type := MethodsCollection {
  cache : gmap string loc;
  cacheByFunc : gmap reflectValue loc;
  bootstrapped : bool
}.

(** The part of [modelInfo] this file reads. *)
Record modelInfo : Type := ModelInfo {
  modelName : string;
  methods : methodsCollection
}.

(** The registry state: the global [modelRegistry], the allocated
    [methodInfo] and [methodLayer] objects and the allocation pointer. *)
Record state : Type := State {
  modelRegistry : gmap string modelInfo;
  infos : gmap loc methodInfo;
  layers : gmap loc methodLayer;
  nextLoc : loc
}.

(** ** A state monad whose panics keep the state reached so far *)

Definition M (A : Type) : Type := state -> outcome A * state.

Definition ret {A} (a : A) : M A := fun s => (Ok a, s).

Definition bind {A B} (m : M A) (k : A -> M B) : M B :=
  fun s => match m s with
           | (Ok a, s') => k a s'
           | (Panic msg, s') => (Panic msg, s')
           end.

Definition LogAndPanic {A} (msg : string) : M A := fun s => (Panic msg, s).

Notation "x <- c1 ;; c2" := (bind c1 (fun x => c2))
  (at level 100, c1 at next level, right associativity).
Notation "c1 ;;; c2" := (bind c1 (fun _ => c2))
  (at level 100, right associativity).

Definition when (b : bool) (m : M unit) : M unit :=
  if b then m else ret tt.

(** Dereferences. *)
Definition derefModel (m : string) : M modelInfo :=
  fun s => match modelRegistry s !! m with
           | Some x => (Ok x, s)
           | None => (Panic nilDereference, s)
           end.

Definition derefInfo (p : loc) : M methodInfo :=
  fun s => match infos s !! p with
           | Some x => (Ok x, s)
           | None => (Panic nilDereference, s)
           end.

Definition derefLayer (p : option loc) : M methodLayer :=
  fun s => match p with
           | Some l => match layers s !! l with
                       | Some x => (Ok x, s)
                       | None => (Panic nilDereference, s)
                       end
           | None => (Panic nilDereference, s)
           end.

(** Stores and allocation. *)
Definition storeModel (m : string) (x : modelInfo) : M unit :=
  fun s => (Ok tt, State (<[m := x]> (modelRegistry s)) (infos s) (layers s) (nextLoc s)).

Definition storeInfo (p : loc) (x : methodInfo) : M unit :=
  fun s => (Ok tt, State (modelRegistry s) (<[p := x]> (infos s)) (layers s) (nextLoc s)).

Definition storeLayer (p : loc) (x : methodLayer) : M unit :=
  fun s => (Ok tt, State (modelRegistry s) (infos s) (<[p := x]> (layers s)) (nextLoc s)).

Definition alloc : M loc :=
  fun s => (Ok (nextLoc s),
            State (modelRegistry s) (infos s) (layers s) (S (nextLoc s))).

(** ** [methodsCollection] *)

(** [mc.get(methodName)]. *)
Definition get (mc : methodsCollection) (methodName : string) : option loc :=
  cache mc !! methodName.

(** [mc.addLayer(fnVal, methLayer)], on the collection of model [m]. *)
Definition addLayer (m : string) (fnVal : reflectValue) (methLayer : loc) : M unit :=
  x <- derefModel m;;
  let mc := methods x in
  storeModel m (ModelInfo (modelName x)
    (MethodsCollection (cache mc) (<[fnVal := methLayer]> (cacheByFunc mc))
       (bootstrapped mc))).

(** [mc.set(methodName, methInfo)], on the collection of model [m]. *)
Definition set (m : string) (methodName : string) (methInfoP : loc) : M unit :=
  x <- derefModel m;;
  let mc := methods x in
  storeModel m (ModelInfo (modelName x)
    (MethodsCollection (<[methodName := methInfoP]> (cache mc)) (cacheByFunc mc)
       (bootstrapped mc)));;;
  info <- derefInfo methInfoP;;
  top <- derefLayer (topLayer info);;
  match topLayer info with
  | Some l => addLayer m (funcValue top) l
  | None => LogAndPanic nilDereference
  end.

(** ** [methodInfo] *)

(** [methInfo.addMethodLayer(val)]. *)
Definition addMethodLayer (methInfoP : loc) (val : reflectValue) : M unit :=
  ml <- alloc;;
  storeLayer ml (MethodLayer methInfoP val);;;
  info <- derefInfo methInfoP;;
  storeInfo methInfoP
    (MethodInfo (name info) (mi info) (methodType info) (topLayer info)
       (<[Some ml := topLayer info]> (nextLayer info)));;;
  info <- derefInfo methInfoP;;
  storeInfo methInfoP
    (MethodInfo (name info) (mi info) (methodType info) (Some ml)
       (nextLayer info));;;
  info <- derefInfo methInfoP;;
  addLayer (mi info) val ml.

(** [methInfo.getNextLayer(methodLayer)]: a key absent from a Go map reads
    as the zero value, nil. *)
Definition getNextLayer (info : methodInfo) (l : option loc) : option loc :=
  default None (nextLayer info !! l).

(** The type of a function value ([val.Type()]). *)
Definition typeOf (val : reflectValue) : option funcType :=
  match val with
  | FuncValue _ ty => Some ty
  | OtherValue _ => None
  end.

(** [funcType.NumIn() == 0 || funcType.In(0) != RecordSet]. *)
Definition badFirstArgument (ty : funcType) : bool :=
  match ins ty with
  | [] => true
  | t :: _ => bool_decide (t ≠ RecordSetType)
  end.

Definition msgRecordSet : string :=
  "Function must have `RecordSet` as first argument to be used as method.".
Definition msgUnknownModel : string := "Unknown model".
Definition msgBootstrapped : string := "CreateMethod must be run before BootStrap".
Definition msgNotFunction : string := "fnct parameter must be a function".
Definition msgSignature : string := "Function signature does not match".

(** [newMethodInfo(mi, methodName, val)]. *)
Definition newMethodInfo (m : string) (methodName : string)
    (val : reflectValue) (ty : funcType) : M loc :=
  when (badFirstArgument ty) (LogAndPanic msgRecordSet);;;
  p <- alloc;;
  storeInfo p (MethodInfo methodName m ty None ∅);;;
  l <- alloc;;
  storeLayer l (MethodLayer p val);;;
  info <- derefInfo p;;
  storeInfo p
    (MethodInfo (name info) (mi info) (methodType info) (Some l)
       (nextLayer info));;;
  ret p.

(** [DeclareMethod(modelName, methodName, fnct)]. *)
Definition DeclareMethod (model methodName : string) (fnct : reflectValue)
    : M unit :=
  fun s =>
    match modelRegistry s !! model with
    | None => (Panic msgUnknownModel, s)
    | Some x =>
      (when (bootstrapped (methods x)) (LogAndPanic msgBootstrapped);;;
       match typeOf fnct with
       | None => LogAndPanic msgNotFunction
       | Some ty =>
         match get (methods x) methodName with
         | Some methInfoP =>
           info <- derefInfo methInfoP;;
           when (bool_decide (methodType info ≠ ty)) (LogAndPanic msgSignature);;;
           addMethodLayer methInfoP fnct
         | None =>
           p <- newMethodInfo model methodName fnct ty;;
           set model methodName p
         end
       end) s
    end.

(** ** Chains and sequences of registrations *)

(** The layers met from [l] on by following [getNextLayer] down to nil;
    [None] when nil is not reached within [fuel] steps. *)
Fixpoint walk (fuel : nat) (info : methodInfo) (l : option loc)
    : option (list loc) :=
  match l with
  | None => Some []
  | Some p =>
    match fuel with
    | O => None
    | S n => cons p <$> walk n info (getNextLayer info l)
    end
  end.

(** The functions of a list of layers. *)
Definition funcValues (s : state) (ls : list loc) : list (option reflectValue) :=
  map (fun l => funcValue <$> layers s !! l) ls.

(** Registrations of [fs], in this order, under one method name. *)
Fixpoint DeclareMethods (model methodName : string) (fs : list reflectValue)
    : M unit :=
  match fs with
  | [] => ret tt
  | f :: rest =>
    DeclareMethod model methodName f;;;
    DeclareMethods model methodName rest
  end.

(** [newMethodsCollection()]. *)
Definition newMethodsCollection : methodsCollection :=
  MethodsCollection ∅ ∅ false.

(** ** Auxiliary notions for the statements *)

(** The method [methodName] of [model], whose [methodInfo] is at [p], is
    well formed: its info is allocated and names the method and the model,
    its signature has a [RecordSet] first, and from its top layer a chain
    of at least one layer leads to nil, over allocated layers of this
    method that hold functions of this signature. *)
Definition methodOK (s : state) (model methodName : string) (p : loc) : Prop :=
  p < nextLoc s /\
  exists info ls,
    infos s !! p = Some info /\
    name info = methodName /\
    mi info = model /\
    badFirstArgument (methodType info) = false /\
    ls ≠ [] /\
    walk (length ls) info (topLayer info) = Some ls /\
    Forall (fun l =>
              l < nextLoc s /\
              exists c, layers s !! l
                        = Some (MethodLayer p (FuncValue c (methodType info))))
           ls.

(** The registry is well formed: every method of every model is, and the
    by-function table of every model maps a function to an allocated layer
    that holds it. *)
Definition registryOK (s : state) : Prop :=
  (forall model x methodName p,
     modelRegistry s !! model = Some x ->
     get (methods x) methodName = Some p ->
     methodOK s model methodName p) /\
  (forall model x v l,
     modelRegistry s !! model = Some x ->
     cacheByFunc (methods x) !! v = Some l ->
     l < nextLoc s /\ funcValue <$> layers s !! l = Some v).

(** The state after the function of code [c] is put on top of the method at
    [p], described by [info], of [model], described by [x]. *)
Definition withLayer (s : state) (model : string) (x : modelInfo) (p : loc)
    (info : methodInfo) (c : nat) : state :=
  State
    (<[model := ModelInfo (modelName x)
         (MethodsCollection (cache (methods x))
            (<[FuncValue c (methodType info) := nextLoc s]> (cacheByFunc (methods x)))
            (bootstrapped (methods x)))]> (modelRegistry s))
    (<[p := MethodInfo (name info) (mi info) (methodType info)
              (Some (nextLoc s))
              (<[Some (nextLoc s) := topLayer info]> (nextLayer info))]> (infos s))
    (<[nextLoc s := MethodLayer p (FuncValue c (methodType info))]> (layers s))
    (S (nextLoc s)).

(** The state after the function of code [c] and type [ty] is declared as
    the new method [meth] of [model], described by [x]. *)
Definition withMethod (s : state) (model meth : string) (x : modelInfo)
    (c : nat) (ty : funcType) : state :=
  State
    (<[model := ModelInfo (modelName x)
         (MethodsCollection (<[meth := nextLoc s]> (cache (methods x)))
            (<[FuncValue c ty := S (nextLoc s)]> (cacheByFunc (methods x)))
            (bootstrapped (methods x)))]> (modelRegistry s))
    (<[nextLoc s := MethodInfo meth model ty (Some (S (nextLoc s))) ∅]> (infos s))
    (<[S (nextLoc s) := MethodLayer (nextLoc s) (FuncValue c ty)]> (layers s))
    (S (S (nextLoc s))).

(** What [DeclareMethod] comes to on a well-formed registry: the checks
    in the order of the code, and the two ways to succeed. *)
Definition declared (s : state) (model meth : string) (fnct : reflectValue)
    : outcome unit * state :=
  match modelRegistry s !! model with
  | None => (Panic msgUnknownModel, s)
  | Some x =>
    if bootstrapped (methods x) then (Panic msgBootstrapped, s)
    else
      match fnct with
      | OtherValue _ => (Panic msgNotFunction, s)
      | FuncValue c ty =>
        match get (methods x) meth with
        | Some p =>
          match infos s !! p with
          | Some info =>
            if decide (ty = methodType info)
            then (Ok tt, withLayer s model x p info c)
            else (Panic msgSignature, s)
          | None => (Panic nilDereference, s)
          end
        | None =>
          if badFirstArgument ty then (Panic msgRecordSet, s)
          else (Ok tt, withMethod s model meth x c ty)
        end
      end
  end.

(** ** An example registry *)

Definition writeType : funcType :=
  FuncType [RecordSetType; NamedType 1] [NamedType 2].

Definition otherType : funcType := FuncType [RecordSetType] [].

(** A model "User" without methods. *)
Definition emptyRegistry (boot : bool) : state :=
  State {["User" := ModelInfo "User" (MethodsCollection ∅ ∅ boot)]} ∅ ∅ 0.

(** The model "User" with a method "Write" of one layer. *)
Definition userModel (boot : bool) : modelInfo :=
  ModelInfo "User"
    (MethodsCollection {["Write" := 0]} {[FuncValue 7 writeType := 1]} boot).

Definition writeInfo : methodInfo :=
  MethodInfo "Write" "User" writeType (Some 1) ∅.

Definition declaredRegistry (boot : bool) : state :=
  State {["User" := userModel boot]} {[0 := writeInfo]}
        {[1 := MethodLayer 0 (FuncValue 7 writeType)]} 2.

(** The registry [emptyRegistry] after "Write" is declared on "User". *)
Definition oneMethod : state :=
  withMethod (emptyRegistry false) "User" "Write"
    (ModelInfo "User" (MethodsCollection ∅ ∅ false)) 7 writeType.

End Methods.

(** * The query compiler ([queries.go]) *)

Module Queries.

(** ** Values and strings *)

(** An [interface{}] passed as a positional SQL argument. *)
Inductive value : Type :=
| VNil
| VInt (z : Z)
| VString (s : string)
| VBool (b : bool)
| VSlice (elems : list value).

(** [SQLParams], that is [[]interface{}]. *)
Abbreviation SQLParams := (list value).

(** [p.Extend(p2)]. *)
Definition Extend (p p2 : SQLParams) : SQLParams := p ++ p2.

(** [strings.Join(elems, sep)]. *)
Fixpoint Join (elems : list string) (sep : string) : string :=
  match elems with
  | [] => ""
  | [e] => e
  | e :: rest => e +:+ sep +:+ Join rest sep
  end.

(** [strings.Repeat(s, count)] for a count that is not negative. *)
Fixpoint Repeat (s : string) (count : nat) : string :=
  match count with
  | O => ""
  | S n => s +:+ Repeat s n
  end.

(** The separator of the table names in a join alias; the constant is
    declared outside the files at hand, its value is the one shown by the
    comment of [joinedFieldExpression]: [profiles__users]. *)
Definition sqlSep : string := "__".

(** ** The catalog *)

(** A [*modelInfo]. *)
Abbreviation miPtr := nat.

(** The part of [fieldInfo] the compiler reads. *)
Record fieldInfo : Type := FieldInfo {
  json : string;
  required : bool;
  relatedModel : option miPtr
}.

(** The part of [modelInfo] the compiler reads; [fields] is the
    [fieldsCollection], known here through its [get] method only. *)
Record modelInfo : Type := ModelInfo {
  name : string;
  tableName : string;
  fields : string -> option fieldInfo
}.

(** [fields.get(name)]. *)
Definition get (fc : string -> option fieldInfo) (k : string)
    : option fieldInfo := fc k.

(** ** Conditions *)

(** Modelled from the spec: the [DomainOperator] enumeration is declared
    outside the files at hand; the specification lists equality,
    comparison, pattern-match, set-membership and null-check operators. *)
Inductive DomainOperator : Type :=
| OPERATOR_EQUALS
| OPERATOR_NOT_EQUALS
| OPERATOR_GREATER
| OPERATOR_LOWER
| OPERATOR_LIKE
| OPERATOR_IN
| OPERATOR_NULL.

(** Modelled from the spec: the declarations of [condValue] and
    [Condition] are outside the files at hand. A [condValue] is a leaf
    comparison (field path, operator, argument) or a nested sub-condition
    ([isCond]), each tagged with [isOr] and [isNot]; a [Condition] is the
    ordered sequence [params] of its nodes. *)
Inductive condValue : Type :=
| Leaf (exprs : list string) (operator : DomainOperator) (arg : value)
       (isOr isNot : bool)
| Sub (cond : Condition) (isOr isNot : bool)
with Condition : Type :=
| Cond (params : list condValue).

Definition params (c : Condition) : list condValue :=
  match c with Cond ps => ps end.

Definition isOr (cv : condValue) : bool :=
  match cv with Leaf _ _ _ o _ => o | Sub _ o _ => o end.

Definition isNot (cv : condValue) : bool :=
  match cv with Leaf _ _ _ _ n => n | Sub _ _ n => n end.

Definition isCond (cv : condValue) : bool :=
  match cv with Leaf _ _ _ _ _ => false | Sub _ _ _ => true end.

(** The same node with another [isOr] tag. *)
Definition withIsOr (cv : condValue) (o : bool) : condValue :=
  match cv with
  | Leaf e op a _ n => Leaf e op a o n
  | Sub c _ n => Sub c o n
  end.

(** Modelled from the spec: [IsEmpty] is defined outside the files at hand;
    [isEmpty()] is true iff the condition has no nodes. *)
Definition IsEmpty (c : Condition) : bool :=
  match params c with
  | [] => true
  | _ :: _ => false
  end.

(** The number of leaf and sub-condition nodes of a condition tree. *)
Fixpoint countNodes (cv : condValue) : nat :=
  match cv with
  | Leaf _ _ _ _ _ => 1
  | Sub (Cond ps) _ _ => S (list_sum (map countNodes ps))
  end.

Definition nodes (c : Condition) : nat :=
  list_sum (map countNodes (params c)).

(** ** Queries and joins *)

Record RecordSet : Type := MkRecordSet {
  mi : miPtr
}.

(** [Query]; the query is bound to a record set. *)
Record Query : Type := MkQuery {
  recordSet : RecordSet;
  cond : Condition;
  related : list string;
  limit : Z;
  offset : Z;
  groups : list string;
  orders : list string;
  distinct : bool
}.

(** [tableJoin], as [generateTableJoins] fills it. *)
Inductive tableJoin : Type := TableJoin {
  tj_tableName : string;
  joined : bool;
  innerJoin : bool;
  field : string;
  otherTable : option tableJoin;
  otherField : string;
  alias : string
}.

(** The [dbAdapter] interface, as far as the compiler calls it. *)
Class dbAdapter : Type := DbAdapter {
  operatorSQL : DomainOperator -> value -> string * value;
  quoteTableName : string -> string
}.

(** A field map ([FieldMap]). *)
Abbreviation FieldMap := (gmap string value).

Definition msgUnparsable : string := "Unparsable Expression".
Definition msgIn : string := "Unable to expand 'IN' statement".
Definition msgNoInsert : string := "No data given for insert".
Definition msgNoUpdate : string := "No data given for update".
Definition msgUnknownField : string := "Unknown field in model".
Definition msgIndex : string := "index out of range".

Section Compiler.

(** The process-wide collaborators: the adapter of the active driver
    ([adapters[db.DriverName()]]), the store of the [modelInfo]s, the
    [sqlx.In] function of the sqlx library ([None] is its error), the
    helpers [jsonizeExpr] and [sqlString] defined outside the files at hand,
    and the order in which Go ranges over a field map. *)
Context {adapter : dbAdapter}.
Variable deref : miPtr -> modelInfo.
Variable sqlxIn : string -> SQLParams -> option (string * SQLParams).
Variable jsonizeExpr : miPtr -> list string -> outcome (list string).
Variable sqlString : tableJoin -> string.
Variable rangeOrder : FieldMap -> list (string * value).

(** The loop of [generateTableJoins], from index [i] on. *)
Fixpoint joinLoop (fieldExprs : list string) (i exprsLen : nat)
    (curMI : miPtr) (curTJ : tableJoin) (alias : string)
    (joins : list tableJoin) : outcome (list tableJoin) :=
  match fieldExprs with
  | [] => Ok joins
  | expr :: rest =>
    match get (fields (deref curMI)) expr with
    | None => Panic msgUnparsable
    | Some fi =>
      match relatedModel fi with
      | None => Ok joins
      | Some rel =>
        if (i =? exprsLen - 1)%nat then Ok joins
        else
          let innerJoin := if required fi then true else false in
          let linkedTableName := quoteTableName (tableName (deref rel)) in
          let alias := alias +:+ sqlSep +:+ tableName (deref rel) in
          let nextTJ :=
            TableJoin linkedTableName true innerJoin "id" (Some curTJ) expr
                      (quoteTableName alias) in
          joinLoop rest (S i) exprsLen rel nextTJ alias (joins ++ [nextTJ])
      end
    end
  end.

(** [q.generateTableJoins(fieldExprs)]. *)
Definition generateTableJoins (q : Query) (fieldExprs : list string)
    : outcome (list tableJoin) :=
  let currentTableName := quoteTableName (tableName (deref (mi (recordSet q)))) in
  let currentTJ :=
    TableJoin currentTableName false false "" None "" currentTableName in
  let joins := [currentTJ] in
  let curMI := mi (recordSet q) in
  let alias := tableName (deref curMI) in
  joinLoop fieldExprs 0 (length fieldExprs) curMI currentTJ alias joins.

(** [q.joinedFieldExpression(exprs, withAlias...)]. *)
Definition joinedFieldExpression (q : Query) (exprs : list string)
    (withAlias : list bool) : outcome string :=
  match generateTableJoins q exprs with
  | Panic m => Panic m
  | Ok joins =>
    let num := length joins in
    match joins !! (num - 1)%nat, exprs !! (num - 1)%nat with
    | Some j, Some e =>
      match withAlias with
      | true :: _ => Ok (alias j +:+ "." +:+ e +:+ " AS " +:+ Join exprs sqlSep)
      | _ => Ok (alias j +:+ "." +:+ e)
      end
    | _, _ => Panic msgIndex
    end
  end.

(** ** The WHERE clause *)

Section Range.

Variable clause : condValue -> list bool -> outcome (string * SQLParams).

(** The loop of [conditionSQLClause] over [c.params]. *)
Fixpoint rangeParams (ps : list condValue) (first : bool) (sql : string)
    (args : SQLParams) : outcome (string * SQLParams) :=
  match ps with
  | [] => Ok (sql, args)
  | val :: rest =>
    match clause val [first] with
    | Panic m => Panic m
    | Ok (vSQL, vArgs) => rangeParams rest false (sql +:+ vSQL) (Extend args vArgs)
    end
  end.

Definition conditionClause (c : Condition) : outcome (string * SQLParams) :=
  if IsEmpty c then Ok ("", []) else rangeParams (params c) true "" [].

End Range.

(** The connective and negation written before a node. *)
Definition clausePrefix (cv : condValue) (isFirst : bool) : string :=
  let sql := "" in
  let sql := if isOr cv && negb isFirst then sql +:+ "OR "
             else if negb isFirst then sql +:+ "AND " else sql in
  if isNot cv then sql +:+ "NOT " else sql.

(** [q.condValueSQLClause(cv, first...)]. *)
Fixpoint condValueSQLClause (q : Query) (cv : condValue) (first : list bool)
    : outcome (string * SQLParams) :=
  let isFirst := match first with b :: _ => b | [] => false end in
  let sql := clausePrefix cv isFirst in
  match cv with
  | Sub c _ _ =>
    match conditionClause (condValueSQLClause q) c with
    | Panic m => Panic m
    | Ok (subSQL, subArgs) => Ok (sql +:+ "(" +:+ subSQL +:+ ") ", Extend [] subArgs)
    end
  | Leaf exprs operator arg _ _ =>
    match jsonizeExpr (mi (recordSet q)) exprs with
    | Panic m => Panic m
    | Ok exprs =>
      match joinedFieldExpression q exprs [] with
      | Panic m => Panic m
      | Ok field =>
        let (opSql, arg) := operatorSQL operator arg in
        Ok (sql +:+ field +:+ " " +:+ opSql +:+ " ", [] ++ [arg])
      end
    end
  end.

(** [q.conditionSQLClause(c)]. *)
Definition conditionSQLClause (q : Query) (c : Condition)
    : outcome (string * SQLParams) :=
  conditionClause (condValueSQLClause q) c.

(** [q.sqlWhereClause()]. *)
Definition sqlWhereClause (q : Query) : outcome (string * SQLParams) :=
  match conditionSQLClause q (cond q) with
  | Panic m => Panic m
  | Ok (sql, args) =>
    let sql := if bool_decide (sql ≠ "") then "WHERE " +:+ sql else sql in
    match sqlxIn sql args with
    | None => Panic msgIn
    | Some (sql, args) => Ok (sql, args)
    end
  end.

(** ** LIMIT and OFFSET *)

(** [fmt.Sprintf("%d", n)]. *)
Definition formatInt (n : Z) : string := NilZero.string_of_int (Z.to_int n).

(** [q.sqlLimitOffsetClause()]. *)
Definition sqlLimitOffsetClause (q : Query) : string :=
  let res := "" in
  let res := if (0 <? limit q)%Z
             then "LIMIT " +:+ formatInt (limit q) +:+ " " else res in
  if (0 <? offset q)%Z
  then res +:+ "OFFSET " +:+ formatInt (offset q) +:+ " " else res.

(** ** DELETE *)

(** [q.deleteQuery()]. *)
Definition deleteQuery (q : Query) : outcome (string * SQLParams) :=
  match sqlWhereClause q with
  | Panic m => Panic m
  | Ok (sql, args) =>
    Ok ("DELETE FROM " +:+ quoteTableName (tableName (deref (mi (recordSet q))))
          +:+ " " +:+ sql, args)
  end.

(** ** INSERT and UPDATE *)

(** [xs[i] = x] on a slice: out of range, Go panics. *)
Definition assign {A} (xs : list A) (i : nat) (x : A) : outcome (list A) :=
  if (i <? length xs)%nat then Ok (<[i := x]> xs) else Panic msgIndex.

(** The loop of [insertQuery] over the entries of [data]. *)
Fixpoint insertLoop (q : Query) (kvs : list (string * value)) (i : nat)
    (cols : list string) (vals : SQLParams)
    : outcome (list string * SQLParams) :=
  match kvs with
  | [] => Ok (cols, vals)
  | (k, v) :: rest =>
    match get (fields (deref (mi (recordSet q)))) k with
    | None => Panic msgUnknownField
    | Some fi =>
      match assign cols i (json fi), assign vals i v with
      | Ok cols, Ok vals => insertLoop q rest (S i) cols vals
      | Panic m, _ => Panic m
      | _, Panic m => Panic m
      end
    end
  end.

(** [q.insertQuery(data)]. *)
Definition insertQuery (q : Query) (data : FieldMap)
    : outcome (string * SQLParams) :=
  if (size data =? 0)%nat then Panic msgNoInsert
  else
    let cols := replicate (size data) "" in
    let vals := replicate (size data) VNil in
    match insertLoop q (rangeOrder data) 0 cols vals with
    | Panic m => Panic m
    | Ok (cols, vals) =>
      let tableName := quoteTableName (tableName (deref (mi (recordSet q)))) in
      let fields := Join cols ", " in
      let values := "?" +:+ Repeat ", ?" (length vals - 1) in
      Ok ("INSERT INTO " +:+ tableName +:+ " (" +:+ fields +:+ ") VALUES ("
            +:+ values +:+ ") RETURNING id", vals)
    end.

(** The loop of [updateQuery] over the entries of [data]. *)
Fixpoint updateLoop (q : Query) (kvs : list (string * value)) (i : nat)
    (cols : list string) (vals : SQLParams)
    : outcome (list string * SQLParams) :=
  match kvs with
  | [] => Ok (cols, vals)
  | (k, v) :: rest =>
    match get (fields (deref (mi (recordSet q)))) k with
    | None => Panic msgUnknownField
    | Some fi =>
      match assign cols i (json fi +:+ " = ?"), assign vals i v with
      | Ok cols, Ok vals => updateLoop q rest (S i) cols vals
      | Panic m, _ => Panic m
      | _, Panic m => Panic m
      end
    end
  end.

(** [q.updateQuery(data)]. *)
Definition updateQuery (q : Query) (data : FieldMap)
    : outcome (string * SQLParams) :=
  if (size data =? 0)%nat then Panic msgNoUpdate
  else
    let cols := replicate (size data) "" in
    let vals := replicate (size data) VNil in
    match updateLoop q (rangeOrder data) 0 cols vals with
    | Panic m => Panic m
    | Ok (cols, vals) =>
      let tableName := quoteTableName (tableName (deref (mi (recordSet q)))) in
      let updates := Join cols ", " in
      match sqlWhereClause q with
      | Panic m => Panic m
      | Ok (whereSQL, args) =>
        Ok ("UPDATE " +:+ tableName +:+ " SET " +:+ updates +:+ " " +:+ whereSQL,
            vals ++ args)
      end
    end.

(** ** The FROM clause *)

(** The inner loop of [tablesSQL]: the joins of one path. *)
Fixpoint addJoins (tJoins : list tableJoin) (joinsMap : gmap string bool)
    (res : string) : gmap string bool * string :=
  match tJoins with
  | [] => (joinsMap, res)
  | j :: rest =>
    match joinsMap !! alias j with
    | None => addJoins rest (<[alias j := true]> joinsMap) (res +:+ sqlString j)
    | Some _ => addJoins rest joinsMap res
    end
  end.

(** The outer loop of [tablesSQL]. *)
Fixpoint tablesLoop (q : Query) (fExprs : list (list string))
    (joinsMap : gmap string bool) (res : string) : outcome string :=
  match fExprs with
  | [] => Ok res
  | f :: rest =>
    match generateTableJoins q f with
    | Panic m => Panic m
    | Ok tJoins =>
      let (joinsMap, res) := addJoins tJoins joinsMap res in
      tablesLoop q rest joinsMap res
    end
  end.

(** [q.tablesSQL(fExprs)]. *)
Definition tablesSQL (q : Query) (fExprs : list (list string)) : outcome string :=
  tablesLoop q fExprs ∅ "".

(** The joins of all the paths, in the order [tablesSQL] meets them. *)
Fixpoint allJoins (q : Query) (fExprs : list (list string))
    : outcome (list tableJoin) :=
  match fExprs with
  | [] => Ok []
  | f :: rest =>
    match generateTableJoins q f with
    | Panic m => Panic m
    | Ok tJoins =>
      match allJoins q rest with
      | Panic m => Panic m
      | Ok js => Ok (tJoins ++ js)
      end
    end
  end.

(** The [tableJoin] of the table of the query. *)
Definition rootJoin (q : Query) : tableJoin :=
  let t := quoteTableName (tableName (deref (mi (recordSet q)))) in
  TableJoin t false false "" None "" t.

(** The [tableJoin] made when the relation field [expr], described by [fi]
    and leading to the model [rel], is crossed from the table of the query. *)
Definition firstHop (q : Query) (expr : string) (fi : fieldInfo) (rel : miPtr)
    : tableJoin :=
  TableJoin (quoteTableName (tableName (deref rel))) true (required fi) "id"
    (Some (rootJoin q)) expr
    (quoteTableName (tableName (deref (mi (recordSet q))) +:+ sqlSep
                       +:+ tableName (deref rel))).

End Compiler.

(** Characters that count as whitespace. *)
Definition isSpace (a : ascii) : bool :=
  bool_decide (a = " "%char) || bool_decide (a = "009"%char)
  || bool_decide (a = "010"%char) || bool_decide (a = "013"%char).

(** A text with its whitespace removed. *)
Fixpoint stripSpaces (s : string) : string :=
  match s with
  | EmptyString => EmptyString
  | String a r => if isSpace a then stripSpaces r else String a (stripSpaces r)
  end.

(** ** Auxiliary notions for the statements *)

(** The joins of a list that are the first with their alias, the aliases in
    [seen] being taken already. *)
Fixpoint firstByAlias (seen : list string) (tJoins : list tableJoin)
    : list tableJoin :=
  match tJoins with
  | [] => []
  | j :: rest =>
    if bool_decide (alias j ∈ seen) then firstByAlias seen rest
    else j :: firstByAlias (alias j :: seen) rest
  end.

(** Every join of the list refers, as its other table, to a join whose
    alias is in [seen] or comes before it in the list. *)
Fixpoint dependsOn (seen : list string) (tJoins : list tableJoin) : Prop :=
  match tJoins with
  | [] => True
  | j :: rest =>
    match otherTable j with
    | Some o => alias o ∈ seen
    | None => True
    end /\ dependsOn (alias j :: seen) rest
  end.

(** The concatenation of texts. *)
Definition text (parts : list string) : string := foldr String.append "" parts.

(** The arguments of the leaves of a node, from left to right, as the
    adapter hands them over. *)
Fixpoint leafArgs {adapter : dbAdapter} (cv : condValue) : SQLParams :=
  match cv with
  | Leaf _ operator arg _ _ => [snd (operatorSQL operator arg)]
  | Sub (Cond ps) _ _ => concat (map leafArgs ps)
  end.

(** The same node with every argument replaced by [a]. *)
Fixpoint withArgs (a : value) (cv : condValue) : condValue :=
  match cv with
  | Leaf exprs operator _ o n => Leaf exprs operator a o n
  | Sub (Cond ps) o n => Sub (Cond (map (withArgs a) ps)) o n
  end.

(** The text of a compiled clause. *)
Definition textOf (o : outcome (string * SQLParams)) : outcome string :=
  match o with
  | Ok (sql, _) => Ok sql
  | Panic m => Panic m
  end.

(** The condition [(A = 1 OR B = 2) AND NOT C = 3] on the paths [pa], [pb]
    and [pc]; the [isOr] tags of the two nodes in first position are free. *)
Definition nestedCondition (pa pb pc : list string) (o1 o2 : bool) : Condition :=
  Cond [Sub (Cond [Leaf pa OPERATOR_EQUALS (VInt 1) o1 false;
                   Leaf pb OPERATOR_EQUALS (VInt 2) true false]) o2 false;
        Leaf pc OPERATOR_EQUALS (VInt 3) false true].

(** An argument that is not a slice. *)
Definition isScalar (v : value) : bool :=
  match v with VSlice _ => false | _ => true end.

(** [sqlx.In] leaves a query none of whose arguments is a slice as it is. *)
Definition passesScalars
    (sqlxIn : string -> SQLParams -> option (string * SQLParams)) : Prop :=
  forall sql args, forallb isScalar args = true -> sqlxIn sql args = Some (sql, args).

(** The storage names of the keys [kvs], when all are fields of the model. *)
Fixpoint storageNames (m : modelInfo) (kvs : list (string * value))
    : option (list string) :=
  match kvs with
  | [] => Some []
  | (k, _) :: rest =>
    match get (fields m) k, storageNames m rest with
    | Some fi, Some names => Some (json fi :: names)
    | _, _ => None
    end
  end.

(** Go may range over a map in any order of its entries. *)
Definition rangesOver (rangeOrder : FieldMap -> list (string * value)) : Prop :=
  forall data, rangeOrder data ≡ₚ map_to_list data.

(** ** An example catalog *)

Definition dquote : string := String "034"%char EmptyString.

(** An adapter in the style of PostgreSQL. *)
Definition postgres : dbAdapter :=
  DbAdapter
    (fun op v =>
       match op with
       | OPERATOR_EQUALS => ("= ?", v)
       | OPERATOR_NOT_EQUALS => ("!= ?", v)
       | OPERATOR_GREATER => ("> ?", v)
       | OPERATOR_LOWER => ("< ?", v)
       | OPERATOR_LIKE => ("LIKE ?", v)
       | OPERATOR_IN => ("IN (?)", v)
       | OPERATOR_NULL => ("IS NULL", v)
       end)
    (fun t => dquote +:+ t +:+ dquote).

Definition employeeFields (k : string) : option fieldInfo :=
  if bool_decide (k = "name") then Some (FieldInfo "name" true None)
  else if bool_decide (k = "age") then Some (FieldInfo "age" false None)
  else if bool_decide (k = "manager_id") then Some (FieldInfo "manager_id" true (Some 0%nat))
  else if bool_decide (k = "department_id") then Some (FieldInfo "department_id" false (Some 1%nat))
  else None.

Definition departmentFields (k : string) : option fieldInfo :=
  if bool_decide (k = "name") then Some (FieldInfo "name" true None)
  else if bool_decide (k = "code") then Some (FieldInfo "code" false None)
  else None.

(** Model 0 is "Employee", every other pointer is "Department". *)
Definition exampleCatalog (p : miPtr) : modelInfo :=
  match p with
  | O => ModelInfo "Employee" "employee" employeeFields
  | S _ => ModelInfo "Department" "department" departmentFields
  end.

(** A stand-in for [sqlx.In] on queries without slice arguments. *)
Definition scalarIn (sql : string) (args : SQLParams)
    : option (string * SQLParams) :=
  if forallb isScalar args then Some (sql, args) else None.

(** Field names that are their own storage names. *)
Definition sameNames (_ : miPtr) (exprs : list string) : outcome (list string) :=
  Ok exprs.

(** A rendering of joins for the examples. *)
Definition exampleSQLString (t : tableJoin) : string :=
  if joined t then
    (if innerJoin t then "INNER JOIN " else "LEFT JOIN ")
      +:+ tj_tableName t +:+ " " +:+ alias t +:+ " ON "
      +:+ match otherTable t with Some o => alias o | None => "" end
      +:+ "." +:+ otherField t +:+ "=" +:+ alias t +:+ "." +:+ field t +:+ " "
  else tj_tableName t +:+ " ".

Definition employees (c : Condition) : Query :=
  MkQuery (MkRecordSet 0%nat) c [] 0 0 [] [] false.

(** The field map [{"name": "Bob", "age": 30}]. *)
Definition bob : FieldMap := <["name" := VString "Bob"]> (<["age" := VInt 30]> ∅).

(** The condition [name = 'Al']. *)
Definition named : Condition :=
  Cond [Leaf ["name"] OPERATOR_EQUALS (VString "Al") false false].

(** A catalog whose model "Employee" has two relations to itself. *)
Definition mentorFields (k : string) : option fieldInfo :=
  if bool_decide (k = "name") then Some (FieldInfo "name" true None)
  else if bool_decide (k = "manager_id") then Some (FieldInfo "manager_id" true (Some 0%nat))
  else if bool_decide (k = "mentor_id") then Some (FieldInfo "mentor_id" false (Some 0%nat))
  else None.

Definition mentorCatalog (_ : miPtr) : modelInfo :=
  ModelInfo "Employee" "employee" mentorFields.

(** A query for ten rows after the first twenty. *)
Definition paged : Query :=
  MkQuery (MkRecordSet 0%nat) (Cond []) [] 10 20 [] [] false.

End Queries.

(** * The views collection (package [ir]) *)

Module Views.

Local Open Scope Z_scope.

(** [ViewType]. *)
Definition ViewType : Type := string.

(** [View], without its inheritance links. [Priority] is a [uint8]. *)
Record View : Type := MkView {
  ID : string;
  Name : string;
  Model : string;
  Type_ : ViewType;
  Priority : Z;
  Arch : string
}.

(** [ViewsCollection] (the lock is not modelled). *)
Record ViewsCollection : Type := MkViewsCollection {
  views : gmap string View;
  orderedViews : gmap string (list View)
}.

(** [NewViewsCollection()]. *)
Definition NewViewsCollection : ViewsCollection := MkViewsCollection ∅ ∅.

(** [vc.orderedViews[model]]: an absent key reads as the nil slice. *)
Definition ordered (vc : ViewsCollection) (model : string) : list View :=
  default [] (orderedViews vc !! model).

(** The conversion [int8(i)]: wrap-around into [-128, 127]. *)
Definition int8 (i : Z) : Z := (i + 128) mod 256 - 128.

(** The loop of [AddView], entered at position [i] with the current
    value of [index]. *)
Fixpoint findIndex (vs : list View) (i : Z) (index : Z) (v : View) : Z :=
  match vs with
  | [] => index
  | view :: rest =>
    let index := int8 i in
    if Priority view >=? Priority v then index
    else findIndex rest (i + 1) index v
  end.

Definition msgSlice : string := "slice bounds out of range".
Definition msgNoView : string := "No view of this type in model".

(** [s[index:]] and [s[:index]]. *)
Definition sliceFrom {A} (s : list A) (index : Z) : outcome (list A) :=
  if (index <? 0) || (Z.of_nat (length s) <? index) then Panic msgSlice
  else Ok (drop (Z.to_nat index) s).

Definition sliceTo {A} (s : list A) (index : Z) : outcome (list A) :=
  if (index <? 0) || (Z.of_nat (length s) <? index) then Panic msgSlice
  else Ok (take (Z.to_nat index) s).

(** [vc.AddView(v)]: the outcome and the collection it leaves. *)
Definition AddView (vc : ViewsCollection) (v : View)
    : outcome unit * ViewsCollection :=
  let index := findIndex (ordered vc (Model v)) 0 0 v in
  let vc := MkViewsCollection (<[ID v := v]> (views vc)) (orderedViews vc) in
  match sliceFrom (ordered vc (Model v)) index with
  | Panic m => (Panic m, vc)
  | Ok endElems =>
    match sliceTo (ordered vc (Model v)) index with
    | Panic m => (Panic m, vc)
    | Ok front =>
      (Ok tt,
       MkViewsCollection (views vc)
         (<[Model v := (front ++ [v]) ++ endElems]> (orderedViews vc)))
    end
  end.

(** A sequence of [AddView] calls, stopping at the first panic. *)
Fixpoint AddViews (vc : ViewsCollection) (vs : list View)
    : outcome unit * ViewsCollection :=
  match vs with
  | [] => (Ok tt, vc)
  | v :: rest =>
    match AddView vc v with
    | (Ok _, vc) => AddViews vc rest
    | (Panic m, vc) => (Panic m, vc)
    end
  end.

(** [vc.GetViewById(id)]. *)
Definition GetViewById (vc : ViewsCollection) (id : string) : option View :=
  views vc !! id.

(** [vc.GetFirstViewForModel(model, viewType)]. *)
Definition GetFirstViewForModel (vc : ViewsCollection) (model : string)
    (viewType : ViewType) : outcome View :=
  match List.find (fun view => bool_decide (Type_ view = viewType)) (ordered vc model) with
  | Some view => Ok view
  | None => Panic msgNoView
  end.

(** Nondecreasing priorities. *)
Fixpoint sortedByPriority (vs : list View) : bool :=
  match vs with
  | [] => true
  | v :: rest =>
    match rest with
    | [] => true
    | w :: _ => (Priority v <=? Priority w) && sortedByPriority rest
    end
  end.

(** ** View references *)

(** [ViewRef], a pair of strings: the id of a view and its name. *)
Abbreviation ViewRef := (string * string)%type.

(** [MakeViewRef(id)], on the registry [ViewsRegistry]. *)
Definition MakeViewRef (registry : ViewsCollection) (id : string) : ViewRef :=
  match GetViewById registry id with
  | None => ("", "")
  | Some view => (id, Name view)
  end.

(** [e.String()]. *)
Definition ViewRef_String (e : ViewRef) : string :=
  "[" +:+ e.1 +:+ "," +:+ e.2 +:+ "]".

(** [vr.Value()]: the id, for the database. *)
Definition Value (vr : ViewRef) : string := vr.1.

(** What [Scan] may be handed: a string, bytes, or a value of another
    type, known by the name of its type. *)
Inductive scanSource : Type :=
| SrcString (s : string)
| SrcBytes (b : string)
| SrcOther (typeName : string).

(** [vr.Scan(src)]: the error, if any, and the reference afterwards. *)
Definition Scan (registry : ViewsCollection) (vr : ViewRef) (src : scanSource)
    : option string * ViewRef :=
  match src with
  | SrcString s => (None, MakeViewRef registry s)
  | SrcBytes s => (None, MakeViewRef registry s)
  | SrcOther t => (Some ("Invalid type for ViewRef: " +:+ t), vr)
  end.

(** ** Auxiliary notions for the statements *)

(** The position of the first view whose priority is not below [p]. *)
Fixpoint firstNotBelow (vs : list View) (p : Z) : option nat :=
  match vs with
  | [] => None
  | view :: rest =>
    if Priority view >=? p then Some O else S <$> firstNotBelow rest p
  end.

(** The position at which [AddView] puts a view of priority [p] when no
    index overflows: before the first view whose priority is not below [p],
    and else before the last view. *)
Definition insertionPoint (vs : list View) (p : Z) : nat :=
  match firstNotBelow vs p with
  | Some k => k
  | None => (length vs - 1)%nat
  end.

(** ** Two example views of one model *)

Definition lowView : View := MkView "partner_form" "Partner" "Partner" "form" 1 "".

Definition highView : View :=
  MkView "partner_form_full" "Partner, full" "Partner" "form" 5 "".

(** A collection whose model "Partner" has 129 views of priority 1. *)
Definition crowded : ViewsCollection :=
  MkViewsCollection ∅ {["Partner" := replicate 129 lowView]}.

(** A collection with the single view [lowView]. *)
Definition oneView : ViewsCollection :=
  MkViewsCollection {["partner_form" := lowView]} {["Partner" := [lowView]]}.

End Views.

(** * Properties of the method registry *)

Module MethodsSpec.
Import Methods.

Ltac run_monad :=
  unfold bind, derefInfo, derefLayer, addMethodLayer, newMethodInfo, set, alloc,
    storeLayer, storeInfo, addLayer, derefModel, storeModel, when, ret,
    LogAndPanic; cbn.

Lemma declare_existing (s : state) (model meth : string) (x : modelInfo)
    (p : loc) (info : methodInfo) (c : nat) :
  modelRegistry s !! model = Some x ->
  bootstrapped (methods x) = false ->
  get (methods x) meth = Some p ->
  infos s !! p = Some info ->
  mi info = model ->
  DeclareMethod model meth (FuncValue c (methodType info)) s =
    (Ok tt,
     State
       (<[model := ModelInfo (modelName x)
            (MethodsCollection (cache (methods x))
               (<[FuncValue c (methodType info) := nextLoc s]> (cacheByFunc (methods x)))
               (bootstrapped (methods x)))]> (modelRegistry s))
       (<[p := MethodInfo (name info) (mi info) (methodType info)
                 (Some (nextLoc s))
                 (<[Some (nextLoc s) := topLayer info]> (nextLayer info))]> (infos s))
       (<[nextLoc s := MethodLayer p (FuncValue c (methodType info))]> (layers s))
       (S (nextLoc s))).
Proof.
  intros Hx Hb Hg Hi Hm.
  unfold DeclareMethod. rewrite Hx, Hb. cbn.
  unfold bind at 1. cbn. rewrite Hg.
  run_monad.
  rewrite Hi. cbn.
  rewrite bool_decide_false by (intros H; by apply H). cbn.
  repeat (run_monad; rewrite ?lookup_insert_eq, ?Hi, ?Hm, ?Hx; cbn).
  rewrite !insert_insert_eq. by rewrite Hb.
Qed.

Lemma declare_new (s : state) (model meth : string) (x : modelInfo)
    (c : nat) (ty : funcType) :
  modelRegistry s !! model = Some x ->
  bootstrapped (methods x) = false ->
  get (methods x) meth = None ->
  badFirstArgument ty = false ->
  DeclareMethod model meth (FuncValue c ty) s =
    (Ok tt,
     State
       (<[model := ModelInfo (modelName x)
            (MethodsCollection (<[meth := nextLoc s]> (cache (methods x)))
               (<[FuncValue c ty := S (nextLoc s)]> (cacheByFunc (methods x)))
               (bootstrapped (methods x)))]> (modelRegistry s))
       (<[nextLoc s := MethodInfo meth model ty (Some (S (nextLoc s))) ∅]> (infos s))
       (<[S (nextLoc s) := MethodLayer (nextLoc s) (FuncValue c ty)]> (layers s))
       (S (S (nextLoc s)))).
Proof.
  intros Hx Hb Hg Hty.
  unfold DeclareMethod. rewrite Hx, Hb. cbn.
  unfold bind at 1. cbn. rewrite Hg.
  run_monad. rewrite Hty. cbn.
  repeat (run_monad; rewrite ?lookup_insert_eq, ?Hx; cbn).
  rewrite !insert_insert_eq. by rewrite Hb.
Qed.

Lemma last_map {A B} (f : A -> B) (l : list A) :
  last (map f l) = f <$> last l.
Proof.
  induction l as [|a l IH]; [done|].
  destruct l as [|b l]; [done|].
  change (last (map f (b :: l)) = f <$> last (b :: l)). exact IH.
Qed.

(** *** Walking a chain *)

Lemma walk_length (fuel : nat) (info : methodInfo) (l : option loc)
    (ls : list loc) :
  walk fuel info l = Some ls -> length ls <= fuel.
Proof.
  revert l ls. induction fuel as [|n IH]; intros [p|] ls H; cbn in H;
    simplify_eq; cbn; try lia.
  destruct (walk n info (getNextLayer info (Some p))) as [r|] eqn:E;
    cbn in H; simplify_eq.
  apply IH in E. cbn. lia.
Qed.

Lemma walk_mono (fuel fuel' : nat) (info : methodInfo) (l : option loc)
    (ls : list loc) :
  walk fuel info l = Some ls -> fuel <= fuel' -> walk fuel' info l = Some ls.
Proof.
  revert fuel' l ls. induction fuel as [|n IH]; intros fuel' [p|] ls H Hle;
    cbn in H; simplify_eq; try (by destruct fuel').
  destruct fuel' as [|m]; [lia|]. cbn.
  destruct (walk n info (getNextLayer info (Some p))) as [r|] eqn:E;
    cbn in H; simplify_eq.
  rewrite (IH m _ r E); [done|lia].
Qed.

Lemma walk_exact (info : methodInfo) (l : option loc) (ls : list loc) :
  walk (length ls) info l = Some ls ->
  forall fuel,
    walk fuel info l = if (length ls <=? fuel)%nat then Some ls else None.
Proof.
  intros H fuel. destruct (Nat.leb_spec (length ls) fuel) as [Hle|Hlt].
  - by apply (walk_mono (length ls)).
  - destruct (walk fuel info l) as [ls'|] eqn:E; [|done].
    pose proof (walk_length _ _ _ _ E) as Hlen.
    apply (walk_mono _ (length ls)) in E; [|lia].
    rewrite E in H. simplify_eq. lia.
Qed.

(** The walk stops below the layer whose next layer is nil. *)
Lemma walk_last (fuel : nat) (info : methodInfo) (l : option loc)
    (ls : list loc) (b : loc) :
  walk fuel info l = Some ls ->
  last ls = Some b ->
  getNextLayer info (Some b) = None.
Proof.
  revert l ls. induction fuel as [|n IH]; intros [p|] ls H Hb; cbn in H;
    simplify_eq; try done.
  destruct (walk n info (getNextLayer info (Some p))) as [r|] eqn:E;
    cbn in H; simplify_eq.
  destruct r as [|q r].
  - cbn in Hb. simplify_eq.
    destruct (getNextLayer info (Some b)) as [q|]; [|done].
    destruct n; cbn in E; [done|].
    destruct (walk n info (getNextLayer info (Some q))); cbn in E; done.
  - apply (IH _ (q :: r) E). by rewrite last_cons_cons in Hb.
Qed.

(** A layer pushed on top does not disturb the chain below it. *)
Lemma walk_push (fuel : nat) (info : methodInfo) (l v : option loc)
    (top : option loc) (n : loc) (ls : list loc) :
  walk fuel info l = Some ls ->
  n ∉ ls ->
  walk fuel
    (MethodInfo (name info) (mi info) (methodType info) top
       (<[Some n := v]> (nextLayer info))) l = Some ls.
Proof.
  revert l ls. induction fuel as [|k IH]; intros [p|] ls H Hn; cbn in H;
    simplify_eq; try done.
  cbn. destruct (walk k info (getNextLayer info (Some p))) as [r|] eqn:E;
    cbn in H; simplify_eq.
  apply not_elem_of_cons in Hn as [Hne Hn].
  unfold getNextLayer at 1. cbn.
  rewrite lookup_insert_ne by congruence.
  fold (getNextLayer info (Some p)). by rewrite (IH _ r E Hn).
Qed.

Lemma funcValues_push (s s' : state) (n : loc) (x : methodLayer)
    (ls : list loc) :
  layers s' = <[n := x]> (layers s) ->
  n ∉ ls ->
  funcValues s' ls = funcValues s ls.
Proof.
  intros Hs Hn. unfold funcValues. apply map_ext_in. intros l Hl.
  rewrite Hs, lookup_insert_ne; [done|]. intros ->.
  by apply Hn, list_elem_of_In.
Qed.

(** *** Registrations on top of an existing method *)

Lemma declare_more (model meth : string) (ty : funcType) (codes : list nat) :
  forall (s : state) (x : modelInfo) (p : loc) (info : methodInfo)
         (ls : list loc),
    modelRegistry s !! model = Some x ->
    bootstrapped (methods x) = false ->
    get (methods x) meth = Some p ->
    infos s !! p = Some info ->
    mi info = model ->
    methodType info = ty ->
    walk (length ls) info (topLayer info) = Some ls ->
    Forall (fun l => l < nextLoc s) ls ->
    exists s' x' info',
      DeclareMethods model meth (map (fun c => FuncValue c ty) codes) s
        = (Ok tt, s') /\
      modelRegistry s' !! model = Some x' /\
      get (methods x') meth = Some p /\
      infos s' !! p = Some info' /\
      walk (length codes + length ls) info' (topLayer info')
        = Some (rev (seq (nextLoc s) (length codes)) ++ ls) /\
      funcValues s' (rev (seq (nextLoc s) (length codes)) ++ ls)
        = map Some (rev (map (fun c => FuncValue c ty) codes))
            ++ funcValues s ls.
Proof.
  induction codes as [|c codes IH]; intros s x p info ls Hx Hb Hg Hi Hm Hty Hw Hlt.
  - exists s, x, info. cbn. by repeat split.
  - cbn [map DeclareMethods]. unfold bind at 1.
    subst ty. rewrite (declare_existing s model meth x p info c Hx Hb Hg Hi Hm).
    set (s1 := State _ _ _ _).
    assert (Hfresh : nextLoc s ∉ ls).
    { intros Hin. rewrite Forall_forall in Hlt. apply Hlt in Hin. lia. }
    edestruct (IH s1) with (ls := nextLoc s :: ls)
      as (s' & x' & info' & Hrun & Hx' & Hg' & Hi' & Hw' & Hf').
    + subst s1. cbn. apply lookup_insert_eq.
    + done.
    + done.
    + subst s1. cbn. apply lookup_insert_eq.
    + done.
    + done.
    + cbn. unfold getNextLayer at 1. cbn. rewrite lookup_insert_eq. cbn.
      by rewrite (walk_push _ _ _ _ _ _ ls Hw Hfresh).
    + subst s1. cbn. constructor; [lia|].
      eapply Forall_impl; [exact Hlt|]. cbn. lia.
    + exists s', x', info'. split; [exact Hrun|].
      split; [exact Hx'|]. split; [exact Hg'|]. split; [exact Hi'|].
      assert (Heq : rev (seq (nextLoc s) (length (c :: codes))) ++ ls
                    = rev (seq (nextLoc s1) (length codes)) ++ nextLoc s :: ls).
      { subst s1. cbn. by rewrite <- app_assoc. }
      rewrite Heq. split.
      * rewrite <- Hw'. f_equal. cbn. lia.
      * rewrite Hf'. cbn [map rev]. rewrite map_app, <- app_assoc. cbn.
        f_equal. change (funcValues s1 (nextLoc s :: ls))
          with ((funcValue <$> layers s1 !! nextLoc s) :: funcValues s1 ls).
        f_equal.
        -- subst s1. cbn [layers]. by rewrite lookup_insert_eq.
        -- by eapply (funcValues_push s s1).
Qed.


(** C1. Registering [k] functions of one valid signature under a method name
    that is new on a model that is not bootstrapped succeeds, and the chain
    of the resulting [methodInfo] is a simple list of [k] layers: walking
    from [topLayer] with [getNextLayer] reaches nil after exactly [k] steps,
    the layers met are pairwise distinct, they are the [k] layers the
    registrations allocated, last registered first, and the bottom one, whose
    next layer is nil, is the originally declared function. *)
Theorem layer_chain (s : state) (model meth : string) (x : modelInfo)
    (ty : funcType) (c : nat) (codes : list nat) :
  modelRegistry s !! model = Some x ->
  bootstrapped (methods x) = false ->
  get (methods x) meth = None ->
  badFirstArgument ty = false ->
  let fs := map (fun c => FuncValue c ty) (c :: codes) in
  exists (s' : state) (x' : modelInfo) (p : loc) (info : methodInfo)
         (ls : list loc),
    DeclareMethods model meth fs s = (Ok tt, s') /\
    modelRegistry s' !! model = Some x' /\
    get (methods x') meth = Some p /\
    infos s' !! p = Some info /\
    (forall fuel,
       walk fuel info (topLayer info)
       = if (length fs <=? fuel)%nat then Some ls else None) /\
    length ls = length fs /\
    NoDup ls /\
    ls = rev (seq (S (nextLoc s)) (length fs)) /\
    funcValues s' ls = map Some (rev fs) /\
    last ls = Some (S (nextLoc s)) /\
    getNextLayer info (Some (S (nextLoc s))) = None /\
    funcValue <$> layers s' !! S (nextLoc s) = Some (FuncValue c ty).
Proof.
  intros Hx Hb Hg Hty fs. subst fs. cbn [map DeclareMethods].
  unfold bind at 1. rewrite (declare_new s model meth x c ty Hx Hb Hg Hty).
  set (s1 := State _ _ _ _).
  set (info1 := MethodInfo meth model ty (Some (S (nextLoc s))) ∅).
  destruct (declare_more model meth ty codes s1
              (ModelInfo (modelName x)
                 (MethodsCollection (<[meth := nextLoc s]> (cache (methods x)))
                    (<[FuncValue c ty := S (nextLoc s)]> (cacheByFunc (methods x)))
                    (bootstrapped (methods x))))
              (nextLoc s) info1 [S (nextLoc s)])
    as (s' & x' & info' & Hrun & Hx' & Hg' & Hi' & Hw' & Hf').
  { subst s1. cbn. apply lookup_insert_eq. }
  { done. }
  { unfold get. cbn. apply lookup_insert_eq. }
  { subst s1. cbn. apply lookup_insert_eq. }
  { done. }
  { done. }
  { done. }
  { subst s1. cbn. constructor; [lia|constructor]. }
  assert (Hls : rev (seq (nextLoc s1) (length codes)) ++ [S (nextLoc s)]
                = rev (seq (S (nextLoc s)) (length (c :: codes)))).
  { subst s1. by cbn. }
  rewrite Hls in Hw', Hf'.
  set (ls := rev (seq (S (nextLoc s)) (length (c :: codes)))) in *.
  assert (Hlen : length ls = length (map (λ c0 : nat, FuncValue c0 ty) (c :: codes))).
  { subst ls. by rewrite length_rev, length_seq, length_map. }
  exists s', x', (nextLoc s), info', ls.
  split; [exact Hrun|]. split; [exact Hx'|]. split; [exact Hg'|].
  split; [exact Hi'|]. split.
  assert (Hwalk : walk (length ls) info' (topLayer info') = Some ls).
  { rewrite <- Hw'. f_equal. rewrite Hlen, length_map. cbn. lia. }
  { intros fuel. pose proof (walk_exact info' _ ls Hwalk fuel) as E.
    exact (eq_ind _ (fun n => walk fuel info' (topLayer info')
                      = if (n <=? fuel)%nat then Some ls else None) E _ Hlen). }
  split; [exact Hlen|]. split.
  { subst ls. apply NoDup_ListNoDup, NoDup_rev, seq_NoDup. }
  split; [subst ls; cbn [length]; by rewrite length_map|].
  assert (Hfv : funcValues s' ls
                = map Some (rev (map (λ c0 : nat, FuncValue c0 ty) (c :: codes)))).
  { rewrite Hf'. cbn [map rev funcValues]. rewrite map_app.
    subst s1. cbn [layers]. by rewrite lookup_insert_eq. }
  split; [exact Hfv|].
  assert (Hlast : last ls = Some (S (nextLoc s))).
  { subst ls. cbn [length seq rev]. by rewrite last_snoc. }
  split; [exact Hlast|].
  assert (Hbottom : funcValue <$> layers s' !! S (nextLoc s) = Some (FuncValue c ty)).
  { assert (Hl : last (funcValues s' ls) = Some (funcValue <$> layers s' !! S (nextLoc s))).
    { unfold funcValues. by rewrite last_map, Hlast. }
    rewrite Hfv in Hl. cbn [map rev] in Hl. rewrite map_app in Hl.
    change (map Some [FuncValue c ty]) with [Some (FuncValue c ty)] in Hl.
    rewrite last_snoc in Hl. by simplify_eq. }
  split; [|exact Hbottom].
  eapply walk_last; [exact Hw'|exact Hlast].
Qed.


Lemma layer_chain_witness :
  modelRegistry (emptyRegistry false) !! "User"
    = Some (ModelInfo "User" (MethodsCollection ∅ ∅ false)) /\
  exists (s' : state) (x' : modelInfo) (p : loc) (info : methodInfo)
         (ls : list loc),
    DeclareMethods "User" "Write"
      (map (fun c => FuncValue c writeType) [7; 8; 9]) (emptyRegistry false)
      = (Ok tt, s') /\
    modelRegistry s' !! "User" = Some x' /\
    get (methods x') "Write" = Some p /\
    infos s' !! p = Some info /\
    (forall fuel,
       walk fuel info (topLayer info)
       = if (3 <=? fuel)%nat then Some ls else None) /\
    length ls = 3 /\
    NoDup ls /\
    ls = [3; 2; 1] /\
    funcValues s' ls
      = map Some [FuncValue 9 writeType; FuncValue 8 writeType;
                  FuncValue 7 writeType] /\
    last ls = Some 1 /\
    getNextLayer info (Some 1) = None /\
    funcValue <$> layers s' !! 1 = Some (FuncValue 7 writeType).
Proof.
  split; [reflexivity|].
  apply (layer_chain (emptyRegistry false) "User" "Write"
           (ModelInfo "User" (MethodsCollection ∅ ∅ false)) writeType 7 [8; 9]);
    reflexivity.
Defined.

(** C4. On a model whose methods collection is bootstrapped, every call of
    [DeclareMethod] panics with the bootstrap message and leaves the whole
    registry state as it was: the method infos, the layers and their chains,
    and the by-function table. *)
Theorem declare_after_bootstrap (s : state) (model meth : string)
    (fnct : reflectValue) (x : modelInfo) :
  modelRegistry s !! model = Some x ->
  bootstrapped (methods x) = true ->
  DeclareMethod model meth fnct s = (Panic msgBootstrapped, s).
Proof.
  intros Hx Hb. unfold DeclareMethod. rewrite Hx, Hb. reflexivity.
Qed.

Lemma declare_after_bootstrap_witness :
  modelRegistry (declaredRegistry true) !! "User" = Some (userModel true) /\
  bootstrapped (methods (userModel true)) = true /\
  DeclareMethod "User" "Write" (FuncValue 8 writeType) (declaredRegistry true)
    = (Panic msgBootstrapped, declaredRegistry true).
Proof.
  split; [reflexivity|]. split; [reflexivity|].
  apply (declare_after_bootstrap (declaredRegistry true) "User" "Write"
           (FuncValue 8 writeType) (userModel true)); reflexivity.
Defined.

(** C5, as the code has it. For an existing [methodInfo], [DeclareMethod]
    with a function of another type always panics and leaves the registry
    state as it was; the panic is the signature error when the model is not
    bootstrapped, and the bootstrap error when it is. *)
Theorem declare_signature_mismatch (s : state) (model meth : string)
    (x : modelInfo) (p : loc) (info : methodInfo) (c : nat) (ty : funcType) :
  modelRegistry s !! model = Some x ->
  get (methods x) meth = Some p ->
  infos s !! p = Some info ->
  ty ≠ methodType info ->
  DeclareMethod model meth (FuncValue c ty) s
    = (Panic (if bootstrapped (methods x) then msgBootstrapped else msgSignature),
       s).
Proof.
  intros Hx Hg Hi Hty. unfold DeclareMethod. rewrite Hx.
  destruct (bootstrapped (methods x)); [reflexivity|].
  cbn. unfold bind at 1. cbn. rewrite Hg.
  run_monad. rewrite Hi. cbn.
  rewrite bool_decide_true by congruence. reflexivity.
Qed.

Lemma declare_signature_mismatch_witness :
  modelRegistry (declaredRegistry false) !! "User" = Some (userModel false) /\
  otherType ≠ methodType writeInfo /\
  DeclareMethod "User" "Write" (FuncValue 8 otherType) (declaredRegistry false)
    = (Panic msgSignature, declaredRegistry false).
Proof.
  split; [reflexivity|]. split; [discriminate|].
  apply (declare_signature_mismatch (declaredRegistry false) "User" "Write"
           (userModel false) 0 writeInfo 8 otherType);
    [reflexivity|reflexivity|reflexivity|discriminate].
Defined.

(** C5, counterexample to the claim as stated: once the model is
    bootstrapped, a registration with a mismatched signature on an existing
    method panics with the bootstrap message, not with the signature error. *)
Lemma declare_signature_mismatch_counterexample :
  get (methods (userModel true)) "Write" = Some 0 /\
  infos (declaredRegistry true) !! 0 = Some writeInfo /\
  otherType ≠ methodType writeInfo /\
  fst (DeclareMethod "User" "Write" (FuncValue 8 otherType)
         (declaredRegistry true)) = Panic msgBootstrapped /\
  fst (DeclareMethod "User" "Write" (FuncValue 8 otherType)
         (declaredRegistry true)) ≠ Panic msgSignature.
Proof.
  split; [reflexivity|]. split; [reflexivity|]. split; [discriminate|].
  split; [reflexivity|]. discriminate.
Qed.

(** *** The well-formed registry *)

Lemma declare_layer (s : state) (model meth : string) (x : modelInfo)
    (p : loc) (info : methodInfo) (c : nat) :
  modelRegistry s !! model = Some x ->
  bootstrapped (methods x) = false ->
  get (methods x) meth = Some p ->
  infos s !! p = Some info ->
  mi info = model ->
  DeclareMethod model meth (FuncValue c (methodType info)) s
  = (Ok tt, withLayer s model x p info c).
Proof. apply declare_existing. Qed.

Lemma declare_method (s : state) (model meth : string) (x : modelInfo)
    (c : nat) (ty : funcType) :
  modelRegistry s !! model = Some x ->
  bootstrapped (methods x) = false ->
  get (methods x) meth = None ->
  badFirstArgument ty = false ->
  DeclareMethod model meth (FuncValue c ty) s
  = (Ok tt, withMethod s model meth x c ty).
Proof. apply declare_new. Qed.

Lemma methodOK_frame (s s' : state) (model meth : string) (p : loc) :
  methodOK s model meth p ->
  infos s' !! p = infos s !! p ->
  (forall l, l < nextLoc s -> layers s' !! l = layers s !! l) ->
  nextLoc s <= nextLoc s' ->
  methodOK s' model meth p.
Proof.
  intros (Hp & info & ls & Hi & Hn & Hm & Hb & Hne & Hw & Hall) Hinfos Hlayers Hle.
  split; [lia|]. exists info, ls. rewrite Hinfos.
  repeat (split; [done|]).
  eapply Forall_impl; [exact Hall|]. cbn. intros l [Hl (c & Hc)].
  split; [lia|]. exists c. by rewrite Hlayers.
Qed.

Lemma methodOK_info (s : state) (model meth : string) (p : loc)
    (info : methodInfo) :
  methodOK s model meth p ->
  infos s !! p = Some info ->
  name info = meth /\ mi info = model /\
  badFirstArgument (methodType info) = false /\
  exists ls,
    ls ≠ [] /\
    walk (length ls) info (topLayer info) = Some ls /\
    Forall (fun l =>
              l < nextLoc s /\
              exists c, layers s !! l
                        = Some (MethodLayer p (FuncValue c (methodType info))))
           ls.
Proof.
  intros (Hp & info0 & ls & Hi & Hn & Hm & Hb & Hne & Hw & Hall) Hinfo.
  rewrite Hinfo in Hi. simplify_eq. repeat (split; [done|]). by exists ls.
Qed.

Lemma registryOK_withLayer (s : state) (model meth : string) (x : modelInfo)
    (p : loc) (info : methodInfo) (c : nat) :
  registryOK s ->
  modelRegistry s !! model = Some x ->
  get (methods x) meth = Some p ->
  infos s !! p = Some info ->
  registryOK (withLayer s model x p info c).
Proof.
  intros [Hmeth Hfunc] Hx Hg Hi.
  pose proof (Hmeth model x meth p Hx Hg) as Hok.
  destruct (methodOK_info _ _ _ _ _ Hok Hi)
    as (Hname & Hmi & Hbad & ls & Hne & Hw & Hall).
  destruct Hok as [Hp _].
  assert (Hfresh : nextLoc s ∉ ls).
  { intros Hin. rewrite Forall_forall in Hall. apply Hall in Hin. lia. }
  split.
  - intros model' x' meth' p' Hx' Hg'.
    assert (Hold : methodOK s model' meth' p').
    { cbn in Hx'. destruct (decide (model' = model)) as [Heq|Hne']; [subst model'|].
      - rewrite lookup_insert_eq in Hx'. injection Hx' as <-.
        by apply (Hmeth model x meth' p').
      - rewrite lookup_insert_ne in Hx' by done.
        by apply (Hmeth model' x' meth' p'). }
    destruct (decide (p' = p)) as [Heq|Hpp]; [subst p'|].
    + destruct (methodOK_info _ _ _ _ _ Hold Hi) as (Hname' & Hmi' & _).
      split; [cbn; lia|].
      eexists _, (nextLoc s :: ls). cbn [infos withLayer].
      rewrite lookup_insert_eq. split; [reflexivity|]. cbn [name mi methodType topLayer].
      split; [done|]. split; [done|]. split; [done|]. split; [done|]. split.
      * cbn [length walk]. unfold getNextLayer at 1. cbn [nextLayer].
        rewrite lookup_insert_eq. cbn [default].
        by rewrite (walk_push _ _ _ _ _ _ ls Hw Hfresh).
      * constructor.
        -- split; [cbn; lia|]. exists c. cbn. by rewrite lookup_insert_eq.
        -- eapply Forall_impl; [exact Hall|]. cbn. intros l [Hl (c' & Hc')].
           split; [lia|]. exists c'. rewrite lookup_insert_ne by lia. done.
    + apply (methodOK_frame s); [done| | |cbn; lia].
      * cbn. by rewrite lookup_insert_ne.
      * intros l Hl. cbn. rewrite lookup_insert_ne by lia. done.
  - intros model' x' v l Hx' Hv. cbn in Hx'.
    destruct (decide (model' = model)) as [Heq|Hne']; [subst model'|].
    + rewrite lookup_insert_eq in Hx'. injection Hx' as <-. cbn in Hv.
      destruct (decide (v = FuncValue c (methodType info))) as [->|Hv'].
      * rewrite lookup_insert_eq in Hv. injection Hv as <-. cbn.
        split; [lia|]. by rewrite lookup_insert_eq.
      * rewrite lookup_insert_ne in Hv by done.
        destruct (Hfunc model x v l Hx Hv) as [Hl Hlv]. cbn.
        split; [lia|]. rewrite lookup_insert_ne by lia. done.
    + rewrite lookup_insert_ne in Hx' by done.
      destruct (Hfunc model' x' v l Hx' Hv) as [Hl Hlv]. cbn.
      split; [lia|]. rewrite lookup_insert_ne by lia. done.
Qed.

Lemma registryOK_withMethod (s : state) (model meth : string) (x : modelInfo)
    (c : nat) (ty : funcType) :
  registryOK s ->
  modelRegistry s !! model = Some x ->
  badFirstArgument ty = false ->
  registryOK (withMethod s model meth x c ty).
Proof.
  intros [Hmeth Hfunc] Hx Hbad. split.
  - intros model' x' meth' p' Hx' Hg'. cbn in Hx'.
    assert (Hcases : (model' = model /\ meth' = meth /\ p' = nextLoc s)
                     \/ methodOK s model' meth' p').
    { destruct (decide (model' = model)) as [Heq|Hne']; [subst model'|].
      - rewrite lookup_insert_eq in Hx'. injection Hx' as <-.
        unfold get in Hg'. cbn in Hg'.
        destruct (decide (meth' = meth)) as [Heq|Hm']; [subst meth'|].
        + rewrite lookup_insert_eq in Hg'. injection Hg' as <-. by left.
        + rewrite lookup_insert_ne in Hg' by done. right.
          by apply (Hmeth model x meth' p').
      - rewrite lookup_insert_ne in Hx' by done. right.
        by apply (Hmeth model' x' meth' p'). }
    destruct Hcases as [(Hq1 & Hq2 & Hq3)|Hold]; [subst model' meth' p'|].
    + split; [cbn; lia|].
      eexists _, [S (nextLoc s)]. cbn [infos withMethod].
      rewrite lookup_insert_eq. split; [reflexivity|].
      cbn [name mi methodType topLayer].
      repeat (split; [done|]).
      constructor; [|constructor]. split; [cbn; lia|]. exists c. cbn.
      by rewrite lookup_insert_eq.
    + pose proof Hold as [Hp' _].
      apply (methodOK_frame s); [done| | |cbn; lia].
      * cbn. rewrite lookup_insert_ne by lia. done.
      * intros l Hl. cbn. rewrite lookup_insert_ne by lia. done.
  - intros model' x' v l Hx' Hv. cbn in Hx'.
    destruct (decide (model' = model)) as [Heq|Hne']; [subst model'|].
    + rewrite lookup_insert_eq in Hx'. injection Hx' as <-. cbn in Hv.
      destruct (decide (v = FuncValue c ty)) as [->|Hv'].
      * rewrite lookup_insert_eq in Hv. injection Hv as <-. cbn.
        split; [lia|]. by rewrite lookup_insert_eq.
      * rewrite lookup_insert_ne in Hv by done.
        destruct (Hfunc model x v l Hx Hv) as [Hl Hlv]. cbn.
        split; [lia|]. rewrite lookup_insert_ne by lia. done.
    + rewrite lookup_insert_ne in Hx' by done.
      destruct (Hfunc model' x' v l Hx' Hv) as [Hl Hlv]. cbn.
      split; [lia|]. rewrite lookup_insert_ne by lia. done.
Qed.

Lemma declare_declared (s : state) (model meth : string) (fnct : reflectValue) :
  registryOK s ->
  DeclareMethod model meth fnct s = declared s model meth fnct.
Proof.
  intros [Hmeth _]. unfold declared.
  destruct (modelRegistry s !! model) as [x|] eqn:Hx.
  2:{ unfold DeclareMethod. by rewrite Hx. }
  destruct (bootstrapped (methods x)) eqn:Hb.
  { unfold DeclareMethod. by rewrite Hx, Hb. }
  destruct fnct as [c ty|k].
  2:{ unfold DeclareMethod. by rewrite Hx, Hb. }
  destruct (get (methods x) meth) as [p|] eqn:Hg.
  - pose proof (Hmeth model x meth p Hx Hg) as Hok.
    destruct Hok as (_ & info & ls & Hi & _ & Hm & _). rewrite Hi.
    destruct (decide (ty = methodType info)) as [->|Hty].
    + by apply declare_layer.
    + unfold DeclareMethod. rewrite Hx, Hb. cbn. unfold bind at 1. cbn.
      rewrite Hg. run_monad. rewrite Hi. cbn.
      rewrite bool_decide_true by congruence. reflexivity.
  - destruct (badFirstArgument ty) eqn:Hbad.
    + unfold DeclareMethod. rewrite Hx, Hb. cbn. unfold bind at 1. cbn.
      rewrite Hg. run_monad. by rewrite Hbad.
    + by apply declare_method.
Qed.

(** X17. On a well-formed registry a call of [DeclareMethod] that panics
    leaves the registry state as it was, and its panic is one of five: the
    model is unknown, the model is bootstrapped, the value is not a
    function, the signature differs from that of the method, or the first
    parameter of a new method is not a [RecordSet]. *)
Theorem declare_failure_atomic (s s' : state) (model meth : string)
    (fnct : reflectValue) (msg : string) :
  registryOK s ->
  DeclareMethod model meth fnct s = (Panic msg, s') ->
  s' = s /\
  msg ∈ [msgUnknownModel; msgBootstrapped; msgNotFunction; msgSignature;
         msgRecordSet].
Proof.
  intros Hok H. rewrite (declare_declared s model meth fnct Hok) in H.
  unfold declared in H.
  destruct (modelRegistry s !! model) as [x|] eqn:Hx.
  2:{ injection H as <- <-. split; [done|]. apply elem_of_cons. by left. }
  destruct (bootstrapped (methods x)).
  { injection H as <- <-. split; [done|]. do 1 (apply elem_of_cons; right).
    apply elem_of_cons. by left. }
  destruct fnct as [c ty|k].
  2:{ injection H as <- <-. split; [done|]. do 2 (apply elem_of_cons; right).
      apply elem_of_cons. by left. }
  destruct (get (methods x) meth) as [p|] eqn:Hg.
  - destruct Hok as [Hmeth _].
    destruct (Hmeth model x meth p Hx Hg) as (_ & info & ls & Hi & _).
    rewrite Hi in H. destruct (decide (ty = methodType info)); [done|].
    injection H as <- <-. split; [done|]. do 3 (apply elem_of_cons; right).
    apply elem_of_cons. by left.
  - destruct (badFirstArgument ty); [|done].
    injection H as <- <-. split; [done|]. do 4 (apply elem_of_cons; right).
    apply elem_of_cons. by left.
Qed.

(** X18. On a well-formed registry [DeclareMethod] succeeds exactly when
    the model is known and not bootstrapped, the value is a function, and
    either the method exists with the type of the function as its
    signature, or the method is new and the first parameter of the function
    is a [RecordSet]. *)
Theorem declare_succeeds_iff (s : state) (model meth : string)
    (fnct : reflectValue) :
  registryOK s ->
  (DeclareMethod model meth fnct s).1 = Ok tt <->
  exists x c ty,
    modelRegistry s !! model = Some x /\
    bootstrapped (methods x) = false /\
    fnct = FuncValue c ty /\
    match get (methods x) meth with
    | Some p => exists info, infos s !! p = Some info /\ methodType info = ty
    | None => badFirstArgument ty = false
    end.
Proof.
  intros Hok. rewrite (declare_declared s model meth fnct Hok).
  unfold declared. split.
  - intros H.
    destruct (modelRegistry s !! model) as [x|] eqn:Hx; [|done].
    destruct (bootstrapped (methods x)) eqn:Hb; [done|].
    destruct fnct as [c ty|k]; [|done].
    exists x, c, ty. repeat (split; [done|]).
    destruct (get (methods x) meth) as [p|].
    + destruct (infos s !! p) as [info|]; [|done].
      destruct (decide (ty = methodType info)); [|done]. by exists info.
    + by destruct (badFirstArgument ty).
  - intros (x & c & ty & Hx & Hb & -> & H). rewrite Hx, Hb.
    destruct (get (methods x) meth) as [p|].
    + destruct H as (info & -> & <-). by rewrite decide_True.
    + by rewrite H.
Qed.

(** X19. The well-formedness of the registry holds of a registry whose
    models have no method yet, and every call of [DeclareMethod], panicking
    or not, keeps it: every method keeps a chain of at least one layer that
    ends at nil, over layers of its own that hold functions of its
    signature, which has a [RecordSet] first. *)
Theorem registry_invariant :
  (forall (reg : gmap string modelInfo) (n : loc),
     (forall model x, reg !! model = Some x ->
                      cache (methods x) = ∅ /\ cacheByFunc (methods x) = ∅) ->
     registryOK (State reg ∅ ∅ n)) /\
  (forall (s : state) (model meth : string) (fnct : reflectValue),
     registryOK s -> registryOK (DeclareMethod model meth fnct s).2).
Proof.
  split.
  - intros reg n Hempty. split.
    + intros model x meth p Hx Hg. destruct (Hempty model x Hx) as [Hc _].
      unfold get in Hg. by rewrite Hc in Hg.
    + intros model x v l Hx Hv. destruct (Hempty model x Hx) as [_ Hc].
      by rewrite Hc in Hv.
  - intros s model meth fnct Hok.
    rewrite (declare_declared s model meth fnct Hok). unfold declared.
    destruct (modelRegistry s !! model) as [x|] eqn:Hx; [|done].
    destruct (bootstrapped (methods x)); [done|].
    destruct fnct as [c ty|k]; [|done].
    destruct (get (methods x) meth) as [p|] eqn:Hg.
    + destruct (infos s !! p) as [info|] eqn:Hi; [|done].
      destruct (decide (ty = methodType info)); [|done].
      by apply (registryOK_withLayer s model meth).
    + destruct (badFirstArgument ty) eqn:Hbad; [done|].
      by apply registryOK_withMethod.
Qed.

Lemma methodOK_distinct (s : state) (model model' meth meth' : string)
    (p p' : loc) :
  methodOK s model meth p ->
  methodOK s model' meth' p' ->
  (model', meth') ≠ (model, meth) ->
  p' ≠ p.
Proof.
  intros (_ & info & ls & Hi & Hn & Hm & _) (_ & info' & ls' & Hi' & Hn' & Hm' & _)
         Hne Hp.
  subst p'. rewrite Hi in Hi'. injection Hi' as <-. apply Hne. congruence.
Qed.

(** X20. On a well-formed registry a successful call of [DeclareMethod]
    leaves every other method as it was: it is found under its name, its
    [methodInfo], with its top layer and its next-layer table, is the same,
    and so is every layer allocated before the call. *)
Theorem declare_frame (s s' : state) (model meth model' meth' : string)
    (fnct : reflectValue) (x' : modelInfo) (p' : loc) :
  registryOK s ->
  DeclareMethod model meth fnct s = (Ok tt, s') ->
  (model', meth') ≠ (model, meth) ->
  modelRegistry s !! model' = Some x' ->
  get (methods x') meth' = Some p' ->
  (exists x'', modelRegistry s' !! model' = Some x'' /\
               get (methods x'') meth' = Some p') /\
  infos s' !! p' = infos s !! p' /\
  (forall l, l < nextLoc s -> layers s' !! l = layers s !! l).
Proof.
  intros Hok H Hne Hx' Hg'.
  rewrite (declare_declared s model meth fnct Hok) in H. unfold declared in H.
  destruct Hok as [Hmeth _].
  pose proof (Hmeth model' x' meth' p' Hx' Hg') as Hok'.
  destruct (modelRegistry s !! model) as [x|] eqn:Hx; [|done].
  destruct (bootstrapped (methods x)); [done|].
  destruct fnct as [c ty|k]; [|done].
  destruct (get (methods x) meth) as [p|] eqn:Hg.
  - destruct (infos s !! p) as [info|] eqn:Hi; [|done].
    destruct (decide (ty = methodType info)); [|done].
    injection H as <-.
    pose proof (methodOK_distinct s model model' meth meth' p p'
                  (Hmeth model x meth p Hx Hg) Hok' Hne) as Hpp.
    split; [|split].
    + cbn. destruct (decide (model' = model)) as [Heq|Hm].
      * subst model'. rewrite lookup_insert_eq. eexists. split; [done|].
        rewrite Hx in Hx'. injection Hx' as <-. exact Hg'.
      * rewrite lookup_insert_ne by done. by exists x'.
    + cbn. by rewrite lookup_insert_ne.
    + intros l Hl. cbn. rewrite lookup_insert_ne by lia. done.
  - destruct (badFirstArgument ty); [done|]. injection H as <-.
    destruct Hok' as [Hp' _].
    split; [|split].
    + cbn. destruct (decide (model' = model)) as [Heq|Hm].
      * subst model'. rewrite lookup_insert_eq. eexists. split; [done|].
        rewrite Hx in Hx'. injection Hx' as <-. unfold get. cbn.
        rewrite lookup_insert_ne; [exact Hg'|].
        intros Heq. apply Hne. by rewrite Heq.
      * rewrite lookup_insert_ne by done. by exists x'.
    + cbn. rewrite lookup_insert_ne by lia. done.
    + intros l Hl. cbn. rewrite lookup_insert_ne by lia. done.
Qed.

(** X21. On a well-formed registry a function of the signature of an
    existing method of a model that is not bootstrapped becomes the new top
    layer of the method, the layer that was on top becomes its next layer,
    and the chain below is as it was. *)
Theorem declare_pushes_on_top (s : state) (model meth : string) (x : modelInfo)
    (p : loc) (info : methodInfo) (c : nat) (ls : list loc) :
  registryOK s ->
  modelRegistry s !! model = Some x ->
  bootstrapped (methods x) = false ->
  get (methods x) meth = Some p ->
  infos s !! p = Some info ->
  walk (length ls) info (topLayer info) = Some ls ->
  exists s' info',
    DeclareMethod model meth (FuncValue c (methodType info)) s = (Ok tt, s') /\
    infos s' !! p = Some info' /\
    methodType info' = methodType info /\
    topLayer info' = Some (nextLoc s) /\
    layers s' !! nextLoc s
      = Some (MethodLayer p (FuncValue c (methodType info))) /\
    getNextLayer info' (Some (nextLoc s)) = topLayer info /\
    walk (S (length ls)) info' (topLayer info') = Some (nextLoc s :: ls).
Proof.
  intros Hok Hx Hb Hg Hi Hw.
  pose proof Hok as [Hmeth _].
  destruct (methodOK_info _ _ _ _ _ (Hmeth model x meth p Hx Hg) Hi)
    as (_ & Hmi & _ & ls0 & _ & Hw0 & Hall).
  assert (Hls : ls = ls0).
  { destruct (Nat.le_ge_cases (length ls) (length ls0)) as [Hle|Hle].
    - apply (walk_mono _ _ _ _ _ Hw) in Hle. rewrite Hw0 in Hle. congruence.
    - apply (walk_mono _ _ _ _ _ Hw0) in Hle. rewrite Hw in Hle. congruence. }
  subst ls0.
  assert (Hfresh : nextLoc s ∉ ls).
  { intros Hin. rewrite Forall_forall in Hall. apply Hall in Hin. lia. }
  eexists _, _. split; [by apply (declare_layer s model meth x p info c)|].
  cbn [infos layers withLayer]. rewrite !lookup_insert_eq.
  split; [reflexivity|]. cbn [methodType topLayer]. repeat (split; [done|]).
  assert (Hnext : getNextLayer
                    (MethodInfo (name info) (mi info) (methodType info)
                       (Some (nextLoc s))
                       (<[Some (nextLoc s) := topLayer info]> (nextLayer info)))
                    (Some (nextLoc s)) = topLayer info).
  { unfold getNextLayer. cbn [nextLayer]. by rewrite lookup_insert_eq. }
  split; [exact Hnext|]. cbn [walk]. rewrite Hnext.
  by rewrite (walk_push _ _ _ _ _ _ ls Hw Hfresh).
Qed.

(** X22. After a successful call of [DeclareMethod] on a well-formed
    registry, the by-function table of the model maps the function to the
    top layer of the method, which holds this function and belongs to this
    method. *)
Theorem declare_records_function (s s' : state) (model meth : string)
    (fnct : reflectValue) :
  registryOK s ->
  DeclareMethod model meth fnct s = (Ok tt, s') ->
  exists x' p info top,
    modelRegistry s' !! model = Some x' /\
    get (methods x') meth = Some p /\
    infos s' !! p = Some info /\
    topLayer info = Some top /\
    cacheByFunc (methods x') !! fnct = Some top /\
    layers s' !! top = Some (MethodLayer p fnct).
Proof.
  intros Hok H.
  rewrite (declare_declared s model meth fnct Hok) in H. unfold declared in H.
  destruct (modelRegistry s !! model) as [x|] eqn:Hx; [|done].
  destruct (bootstrapped (methods x)); [done|].
  destruct fnct as [c ty|k]; [|done].
  destruct (get (methods x) meth) as [p|] eqn:Hg.
  - destruct (infos s !! p) as [info|] eqn:Hi; [|done].
    destruct (decide (ty = methodType info)) as [->|]; [|done].
    injection H as <-. eexists _, p, _, (nextLoc s).
    cbn [modelRegistry infos layers withLayer]. rewrite !lookup_insert_eq.
    split; [reflexivity|]. split; [exact Hg|]. split; [reflexivity|].
    split; [reflexivity|]. split; [|reflexivity].
    cbn. by rewrite lookup_insert_eq.
  - destruct (badFirstArgument ty); [done|]. injection H as <-.
    eexists _, (nextLoc s), _, (S (nextLoc s)).
    cbn [modelRegistry infos layers withMethod]. rewrite !lookup_insert_eq.
    split; [reflexivity|]. split; [unfold get; cbn; by rewrite lookup_insert_eq|].
    split; [reflexivity|]. split; [reflexivity|]. split; [|reflexivity].
    cbn. by rewrite lookup_insert_eq.
Qed.

(** *** The statements on the example registry *)

Lemma registryOK_empty : registryOK (emptyRegistry false).
Proof.
  split.
  - intros model x meth p Hx Hg. cbn in Hx.
    apply lookup_singleton_Some in Hx as [_ <-]. done.
  - intros model x v l Hx Hv. cbn in Hx.
    apply lookup_singleton_Some in Hx as [_ <-]. done.
Qed.

Lemma registryOK_oneMethod : registryOK oneMethod.
Proof.
  apply registryOK_withMethod; [exact registryOK_empty|reflexivity|reflexivity].
Qed.

Lemma declare_failure_atomic_witness :
  registryOK oneMethod /\
  DeclareMethod "User" "Write" (FuncValue 8 otherType) oneMethod
    = (Panic msgSignature, oneMethod) /\
  msgSignature ∈ [msgUnknownModel; msgBootstrapped; msgNotFunction;
                  msgSignature; msgRecordSet].
Proof.
  assert (Hrun : DeclareMethod "User" "Write" (FuncValue 8 otherType) oneMethod
                 = (Panic msgSignature, oneMethod)) by reflexivity.
  split; [exact registryOK_oneMethod|]. split; [exact Hrun|].
  exact (proj2 (declare_failure_atomic oneMethod oneMethod "User" "Write"
                  (FuncValue 8 otherType) msgSignature registryOK_oneMethod Hrun)).
Defined.

Lemma declare_succeeds_iff_witness :
  registryOK oneMethod /\
  (DeclareMethod "User" "Read" (FuncValue 9 otherType) oneMethod).1 = Ok tt.
Proof.
  split; [exact registryOK_oneMethod|].
  apply (declare_succeeds_iff oneMethod "User" "Read" (FuncValue 9 otherType)
           registryOK_oneMethod).
  eexists _, 9, otherType. split; [reflexivity|]. split; [reflexivity|].
  split; [reflexivity|]. reflexivity.
Defined.

Lemma registry_invariant_witness :
  registryOK (DeclareMethod "User" "Write" (FuncValue 8 writeType) oneMethod).2.
Proof.
  exact (proj2 registry_invariant oneMethod "User" "Write" (FuncValue 8 writeType)
           registryOK_oneMethod).
Defined.

Lemma declare_frame_witness :
  registryOK oneMethod /\
  infos (DeclareMethod "User" "Read" (FuncValue 9 otherType) oneMethod).2 !! 0
    = infos oneMethod !! 0 /\
  (forall l, l < nextLoc oneMethod ->
     layers (DeclareMethod "User" "Read" (FuncValue 9 otherType) oneMethod).2 !! l
     = layers oneMethod !! l).
Proof.
  split; [exact registryOK_oneMethod|].
  destruct (declare_frame oneMethod
              (DeclareMethod "User" "Read" (FuncValue 9 otherType) oneMethod).2
              "User" "Read" "User" "Write" (FuncValue 9 otherType)
              (ModelInfo "User"
                 (MethodsCollection {["Write" := 0]}
                    {[FuncValue 7 writeType := 1]} false)) 0
              registryOK_oneMethod)
    as (_ & Hinfos & Hlayers);
    [reflexivity|discriminate|reflexivity|reflexivity|].
  split; [exact Hinfos|exact Hlayers].
Defined.

Lemma declare_pushes_on_top_witness :
  registryOK oneMethod /\
  exists s' info',
    DeclareMethod "User" "Write" (FuncValue 8 writeType) oneMethod = (Ok tt, s') /\
    infos s' !! 0 = Some info' /\
    methodType info' = writeType /\
    topLayer info' = Some 2 /\
    layers s' !! 2 = Some (MethodLayer 0 (FuncValue 8 writeType)) /\
    getNextLayer info' (Some 2) = Some 1 /\
    walk 2 info' (topLayer info') = Some [2; 1].
Proof.
  split; [exact registryOK_oneMethod|].
  apply (declare_pushes_on_top oneMethod "User" "Write"
           (ModelInfo "User"
              (MethodsCollection {["Write" := 0]}
                 {[FuncValue 7 writeType := 1]} false))
           0 (MethodInfo "Write" "User" writeType (Some 1) ∅) 8 [1]
           registryOK_oneMethod); reflexivity.
Defined.

Lemma declare_records_function_witness :
  registryOK oneMethod /\
  exists x' p info top,
    modelRegistry
      (DeclareMethod "User" "Write" (FuncValue 8 writeType) oneMethod).2 !! "User"
      = Some x' /\
    get (methods x') "Write" = Some p /\
    infos (DeclareMethod "User" "Write" (FuncValue 8 writeType) oneMethod).2 !! p
      = Some info /\
    topLayer info = Some top /\
    cacheByFunc (methods x') !! FuncValue 8 writeType = Some top /\
    layers (DeclareMethod "User" "Write" (FuncValue 8 writeType) oneMethod).2 !! top
      = Some (MethodLayer p (FuncValue 8 writeType)).
Proof.
  split; [exact registryOK_oneMethod|].
  apply (declare_records_function oneMethod _ "User" "Write"
           (FuncValue 8 writeType) registryOK_oneMethod).
  reflexivity.
Defined.

End MethodsSpec.

(** * Properties of the query compiler *)

Module QueriesSpec.
Import Queries.

(** ** Texts, lists of joins and storage names *)

Lemma countNodes_pos (cv : condValue) : 0 < countNodes cv.
Proof. destruct cv as [? ? ? ? ?|[ps] ? ?]; cbn; lia. Qed.

Lemma nodes_zero (c : Condition) : nodes c = 0 <-> params c = [].
Proof.
  destruct c as [[|cv ps]]; cbn; [done|].
  pose proof (countNodes_pos cv). unfold nodes. cbn. split; [lia|done].
Qed.

Lemma append_cons (x : ascii) (a b : string) :
  String x a +:+ b = String x (a +:+ b).
Proof. reflexivity. Qed.

Lemma append_nil_l (b : string) : "" +:+ b = b.
Proof. reflexivity. Qed.

Lemma append_assoc (a b c : string) : (a +:+ b) +:+ c = a +:+ b +:+ c.
Proof.
  induction a as [|x a IH]; [done|]. rewrite !append_cons. by f_equal.
Qed.

(** Texts are compared after their concatenations are nested to the right
    and their literal parts are spelled out. *)
Ltac normalize_text :=
  repeat (progress (rewrite ?append_assoc, ?append_cons, ?append_nil_l)).

Lemma stripSpaces_app (a b : string) :
  stripSpaces (a +:+ b) = stripSpaces a +:+ stripSpaces b.
Proof.
  induction a as [|x a IH]; [done|]. rewrite append_cons. simpl.
  destruct (isSpace x); by rewrite IH.
Qed.

Lemma clausePrefix_first (cv : condValue) :
  clausePrefix cv true = if isNot cv then "NOT " else "".
Proof. unfold clausePrefix. rewrite andb_false_r. by destruct (isNot cv). Qed.

Lemma clausePrefix_later (cv : condValue) :
  clausePrefix cv false
  = (if isOr cv then "OR " else "AND ") +:+ clausePrefix cv true.
Proof.
  unfold clausePrefix. rewrite andb_false_r, andb_true_r. cbn.
  by destruct (isOr cv), (isNot cv).
Qed.

Lemma append_nil_r (a : string) : a +:+ "" = a.
Proof. induction a as [|x a IH]; [done|]. rewrite append_cons. by f_equal. Qed.

Lemma text_app (l1 l2 : list string) : text (l1 ++ l2) = text l1 +:+ text l2.
Proof.
  induction l1 as [|a l1 IH]; [done|].
  cbn [app]. unfold text in *. cbn [foldr]. by rewrite IH, append_assoc.
Qed.

Lemma firstByAlias_ext (l : list tableJoin) :
  forall s1 s2 : list string,
    (forall a, a ∈ s1 <-> a ∈ s2) -> firstByAlias s1 l = firstByAlias s2 l.
Proof.
  induction l as [|j l IH]; intros s1 s2 H; [done|]. cbn.
  rewrite (bool_decide_ext (alias j ∈ s1) (alias j ∈ s2)) by apply H.
  case_bool_decide; [by apply IH|].
  f_equal. apply IH. intros a. rewrite !elem_of_cons, H. done.
Qed.

Lemma firstByAlias_app (l1 l2 : list tableJoin) :
  forall seen : list string,
    firstByAlias seen (l1 ++ l2)
    = firstByAlias seen l1 ++ firstByAlias ((alias <$> l1) ++ seen) l2.
Proof.
  induction l1 as [|j l1 IH]; intros seen; [done|]. cbn.
  case_bool_decide as Hj.
  - rewrite IH. f_equal. apply firstByAlias_ext. intros a.
    rewrite elem_of_cons, !elem_of_app. split; [tauto|].
    intros [->|H]; tauto.
  - cbn. f_equal. rewrite IH. f_equal. apply firstByAlias_ext. intros a.
    rewrite !elem_of_cons, !elem_of_app, elem_of_cons. tauto.
Qed.

Lemma firstByAlias_fresh (l : list tableJoin) :
  forall seen : list string,
    NoDup (alias <$> firstByAlias seen l) /\
    (forall j, j ∈ firstByAlias seen l -> (alias j ∉ seen) /\ (j ∈ l)).
Proof.
  induction l as [|j l IH]; intros seen.
  - cbn. split; [constructor|]. intros j Hj. by apply elem_of_nil in Hj.
  - cbn. case_bool_decide as Hj.
    + destruct (IH seen) as [Hnd Hin]. split; [done|].
      intros j' Hj'. destruct (Hin j' Hj') as [Hn Hl].
      split; [done|]. by apply elem_of_cons; right.
    + destruct (IH (alias j :: seen)) as [Hnd Hin]. split.
      * cbn. constructor; [|done]. intros Ha.
        apply list_elem_of_fmap in Ha as (j' & Heq & Hj').
        destruct (Hin j' Hj') as [Hn _]. apply Hn. rewrite <- Heq.
        by apply elem_of_cons; left.
      * intros j' Hj'. apply elem_of_cons in Hj' as [->|Hj'].
        -- split; [done|]. by apply elem_of_cons; left.
        -- destruct (Hin j' Hj') as [Hn Hl]. split.
           ++ intros Hs. apply Hn. by apply elem_of_cons; right.
           ++ by apply elem_of_cons; right.
Qed.

(** Every alias met is kept once. *)
Lemma firstByAlias_covers (l : list tableJoin) :
  forall (seen : list string) (j : tableJoin),
    j ∈ l -> alias j ∈ seen \/ alias j ∈ alias <$> firstByAlias seen l.
Proof.
  induction l as [|j0 l IH]; intros seen j Hj; [by apply elem_of_nil in Hj|].
  cbn. apply elem_of_cons in Hj as [->|Hj].
  - case_bool_decide; [by left|right]. cbn. by apply elem_of_cons; left.
  - case_bool_decide.
    + by apply IH.
    + destruct (IH (alias j0 :: seen) j Hj) as [H'|H'].
      * apply elem_of_cons in H' as [->|H']; [right|by left].
        cbn. by apply elem_of_cons; left.
      * right. cbn. by apply elem_of_cons; right.
Qed.

(** A join that is kept is the first of the list with its alias. *)
Lemma firstByAlias_first (l : list tableJoin) :
  forall (seen : list string) (j : tableJoin),
    j ∈ firstByAlias seen l ->
    exists pre post, l = pre ++ j :: post /\ alias j ∉ alias <$> pre.
Proof.
  induction l as [|j0 l IH]; intros seen j Hj; [by apply elem_of_nil in Hj|].
  cbn in Hj. case_bool_decide as H0.
  - destruct (IH seen j Hj) as (pre & post & -> & Hpre).
    exists (j0 :: pre), post. split; [done|].
    destruct (firstByAlias_fresh (pre ++ j :: post) seen) as [_ Hin].
    destruct (Hin j Hj) as [Hn _]. cbn. rewrite elem_of_cons.
    intros [Heq|Hin']; [|done]. apply Hn. by rewrite Heq.
  - apply elem_of_cons in Hj as [->|Hj].
    + exists [], l. split; [done|]. cbn. apply not_elem_of_nil.
    + destruct (IH _ j Hj) as (pre & post & -> & Hpre).
      exists (j0 :: pre), post. split; [done|].
      destruct (firstByAlias_fresh (pre ++ j :: post) (alias j0 :: seen)) as [_ Hin].
      destruct (Hin j Hj) as [Hn _]. cbn. rewrite elem_of_cons.
      intros [Heq|Hin']; [|done]. apply Hn. rewrite Heq.
      by apply elem_of_cons; left.
Qed.

Lemma assign_next {A} (done rest : list A) (r x : A) :
  assign (done ++ r :: rest) (length done) x = Ok ((done ++ [x]) ++ rest).
Proof.
  unfold assign.
  rewrite (proj2 (Nat.ltb_lt _ _)) by (rewrite length_app; cbn; lia).
  f_equal. rewrite insert_app_r_alt by lia.
  rewrite Nat.sub_diag. cbn. by rewrite <- app_assoc.
Qed.

Lemma storageNames_None (m : modelInfo) (kvs : list (string * value)) :
  storageNames m kvs = None <->
  exists k v, (k, v) ∈ kvs /\ get (fields m) k = None.
Proof.
  induction kvs as [|[k v] kvs IH]; cbn.
  - split; [done|]. intros (k & v & H & _). by apply elem_of_nil in H.
  - destruct (get (fields m) k) as [fi|] eqn:E.
    + destruct (storageNames m kvs) as [names|].
      * split; [done|]. intros (k' & v' & H & Hn).
        apply elem_of_cons in H as [H|H]; [by simplify_eq|].
        destruct IH as [_ IH]. discriminate IH. by exists k', v'.
      * split; [|done]. intros _. destruct IH as [IH _].
        destruct (IH eq_refl) as (k' & v' & H & Hn).
        exists k', v'. split; [by apply elem_of_cons; right|done].
    + split; [|done]. intros _. exists k, v.
      split; [by apply elem_of_cons; left|done].
Qed.

Lemma storageNames_Some (m : modelInfo) (kvs : list (string * value)) :
  forall names,
    storageNames m kvs = Some names ->
    length names = length kvs /\
    (forall i k v, kvs !! i = Some (k, v) ->
       exists fi, get (fields m) k = Some fi /\ names !! i = Some (json fi)).
Proof.
  induction kvs as [|[k v] kvs IH]; intros names H; cbn in H.
  - simplify_eq. split; [done|]. intros i k v Hi. by destruct i.
  - destruct (get (fields m) k) as [fi|] eqn:E; [|done].
    destruct (storageNames m kvs) as [ns|]; [|done]. simplify_eq.
    destruct (IH ns eq_refl) as [Hl Hp]. split; [cbn; lia|].
    intros [|i] k' v' Hi; cbn in Hi.
    + simplify_eq. by exists fi.
    + by apply Hp in Hi.
Qed.

Lemma placeholders (n : nat) :
  "?" +:+ Repeat ", ?" n = Join (replicate (S n) "?") ", ".
Proof.
  induction n as [|n IH]; [done|].
  change (Join (replicate (S (S n)) "?") ", ")
    with ("?" +:+ ", " +:+ Join (replicate (S n) "?") ", ").
  rewrite <- IH. cbn [Repeat]. by normalize_text.
Qed.

Lemma addJoins_spec (sqlString : tableJoin -> string)
    (tJoins : list tableJoin) :
  forall (joinsMap : gmap string bool) (res : string) (seen : list string),
    (forall a, is_Some (joinsMap !! a) <-> a ∈ seen) ->
    exists joinsMap',
      addJoins sqlString tJoins joinsMap res
        = (joinsMap', res +:+ text (sqlString <$> firstByAlias seen tJoins)) /\
      (forall a, is_Some (joinsMap' !! a) <-> a ∈ (alias <$> tJoins) ++ seen).
Proof.
  induction tJoins as [|j l IH]; intros joinsMap res seen Hrep.
  - exists joinsMap. cbn. by rewrite append_nil_r.
  - cbn. destruct (joinsMap !! alias j) as [b|] eqn:E.
    + assert (Hs : alias j ∈ seen) by (apply Hrep; by rewrite E).
      rewrite bool_decide_true by done.
      destruct (IH joinsMap res seen Hrep) as (jm' & -> & Hrep').
      exists jm'. split; [done|]. intros a. rewrite Hrep'.
      rewrite elem_of_cons, !elem_of_app. split; [tauto|].
      intros [->|H]; tauto.
    + rewrite bool_decide_false.
      2:{ intros Hin. apply Hrep in Hin. rewrite E in Hin. by destruct Hin. }
      destruct (IH (<[alias j := true]> joinsMap) (res +:+ sqlString j)
                  (alias j :: seen)) as (jm' & -> & Hrep').
      { intros a. rewrite lookup_insert_is_Some, Hrep, elem_of_cons.
        destruct (decide (alias j = a)) as [->|Hne]; [tauto|].
        split; [intros [?|[_ ?]]; [done|by right]|].
        intros [->|?]; [done|by right]. }
      exists jm'. split.
      * cbn. unfold text. cbn. by rewrite append_assoc.
      * intros a. rewrite Hrep'.
        rewrite !elem_of_cons, !elem_of_app, elem_of_cons. tauto.
Qed.

Lemma append_eq_self (a b : string) : a +:+ b = a -> b = "".
Proof.
  induction a as [|x a IH]; [done|]. rewrite append_cons. intros H.
  apply IH. by simplify_eq.
Qed.

Lemma append_cancel_r (a b s : string) :
  s ≠ "" -> String.length s = 1 -> a +:+ s = b +:+ s -> a = b.
Proof.
  intros Hs Hl. revert b. induction a as [|x a IH]; intros [|y b] H.
  - done.
  - rewrite append_nil_l, append_cons in H.
    destruct s as [|c [|c' s]]; [done| |done].
    simplify_eq. by destruct b.
  - rewrite append_nil_l, append_cons in H.
    destruct s as [|c [|c' s]]; [done| |done].
    simplify_eq. by destruct a.
  - rewrite !append_cons in H. simplify_eq. f_equal. by apply IH.
Qed.

Lemma append_empty (a b : string) : a +:+ b = "" -> a = "" /\ b = "".
Proof. destruct a; [by rewrite append_nil_l|by rewrite append_cons]. Qed.

(** Induction over the nodes of a condition tree. *)
Lemma condValue_nodes_ind (P : condValue -> Prop) :
  (forall exprs operator arg o n, P (Leaf exprs operator arg o n)) ->
  (forall ps o n, Forall P ps -> P (Sub (Cond ps) o n)) ->
  forall cv, P cv.
Proof.
  intros HL HS. fix IH 1. intros [e op a o n|[ps] o n]; [apply HL|].
  apply HS. revert ps. fix IHps 1. intros [|v ps]; constructor.
  - apply IH.
  - apply IHps.
Qed.

Lemma clausePrefix_withArgs (a : value) (cv : condValue) (isFirst : bool) :
  clausePrefix (withArgs a cv) isFirst = clausePrefix cv isFirst.
Proof. by destruct cv as [? ? ? ? ?|[ps] ? ?]. Qed.

Section RangeFacts.

Context {adapter : dbAdapter}.
Variable clause : condValue -> list bool -> outcome (string * SQLParams).

Lemma rangeParams_args (ps : list condValue) :
  forall (first : bool) (sql0 sql : string) (args0 args : SQLParams),
    Forall (fun v => forall f s a, clause v f = Ok (s, a) -> a = leafArgs v) ps ->
    rangeParams clause ps first sql0 args0 = Ok (sql, args) ->
    args = args0 ++ concat (map leafArgs ps).
Proof.
  induction ps as [|v ps IH]; intros first sql0 sql args0 args Hall H; cbn in H.
  - simplify_eq. by rewrite app_nil_r.
  - apply Forall_cons in Hall as [Hv Hall].
    destruct (clause v [first]) as [[vs va]|m] eqn:E; [|done].
    apply (IH _ _ _ _ _ Hall) in H. rewrite H. unfold Extend.
    rewrite (Hv _ _ _ E). cbn. by rewrite app_assoc.
Qed.

Lemma rangeParams_nonempty (ps : list condValue) :
  forall (first : bool) (sql0 sql : string) (args0 args : SQLParams),
    Forall (fun v => forall f s a, clause v f = Ok (s, a) -> s ≠ "") ps ->
    rangeParams clause ps first sql0 args0 = Ok (sql, args) ->
    ps ≠ [] \/ sql0 ≠ "" ->
    sql ≠ "".
Proof.
  induction ps as [|v ps IH]; intros first sql0 sql args0 args Hall H Hne;
    cbn in H.
  - simplify_eq. by destruct Hne.
  - apply Forall_cons in Hall as [Hv Hall].
    destruct (clause v [first]) as [[vs va]|m] eqn:E; [|done].
    apply (IH _ _ _ _ _ Hall H). right. intros Heq.
    apply append_empty in Heq as [_ Heq]. by apply (Hv _ _ _ E).
Qed.

Lemma rangeParams_text (g : condValue -> condValue) (ps : list condValue) :
  forall (first : bool) (sql0 : string) (args0 args0' : SQLParams),
    Forall (fun v => forall f, textOf (clause v f) = textOf (clause (g v) f)) ps ->
    textOf (rangeParams clause ps first sql0 args0)
    = textOf (rangeParams clause (map g ps) first sql0 args0').
Proof.
  induction ps as [|v ps IH]; intros first sql0 args0 args0' Hall; [done|].
  apply Forall_cons in Hall as [Hv Hall]. cbn [map rangeParams].
  specialize (Hv [first]).
  destruct (clause v [first]) as [[vs va]|m], (clause (g v) [first]) as [[vs' va']|m'];
    cbn in Hv; simplify_eq; [|done].
  by apply IH.
Qed.

End RangeFacts.

Lemma dependsOn_mono (l : list tableJoin) :
  forall s1 s2 : list string,
    (forall a, a ∈ s1 -> a ∈ s2) -> dependsOn s1 l -> dependsOn s2 l.
Proof.
  induction l as [|j l IH]; intros s1 s2 Hsub H; [done|].
  cbn in *. destruct H as [Ho Hrest]. split.
  - destruct (otherTable j); [by apply Hsub|done].
  - apply (IH (alias j :: s1)); [|done]. intros a.
    rewrite !elem_of_cons. intros [->|Ha]; [by left|right; by apply Hsub].
Qed.

Lemma dependsOn_app (l1 l2 : list tableJoin) :
  forall seen : list string,
    dependsOn seen l1 -> dependsOn seen l2 -> dependsOn seen (l1 ++ l2).
Proof.
  induction l1 as [|j l1 IH]; intros seen H1 H2; [done|].
  cbn in *. destruct H1 as [Ho H1]. split; [done|].
  apply IH; [done|]. apply (dependsOn_mono l2 seen); [|done].
  intros a Ha. by apply elem_of_cons; right.
Qed.

Lemma dependsOn_firstByAlias (l : list tableJoin) :
  forall seen : list string,
    dependsOn seen l -> dependsOn seen (firstByAlias seen l).
Proof.
  induction l as [|j l IH]; intros seen H; [done|].
  cbn in H. destruct H as [Ho H]. cbn [firstByAlias].
  case_bool_decide as Hj.
  - apply IH. apply (dependsOn_mono l (alias j :: seen)); [|done].
    intros a. rewrite elem_of_cons. by intros [->|Ha].
  - cbn. split; [done|]. by apply IH.
Qed.

(** ** The compiler *)

Section CompilerSpec.

Local Set Default Proof Using "Type".

Context {adapter : dbAdapter}.
Variable deref : miPtr -> modelInfo.
Variable sqlxIn : string -> SQLParams -> option (string * SQLParams).
Variable jsonizeExpr : miPtr -> list string -> outcome (list string).
Variable sqlString : tableJoin -> string.
Variable rangeOrder : FieldMap -> list (string * value).

(** C8. A condition is empty exactly when its tree has no leaf and no
    sub-condition node, and the WHERE clause of a query whose condition is
    empty is the empty text with no argument. *)
Theorem empty_condition_no_where :
  (forall c : Condition, IsEmpty c = true <-> nodes c = 0) /\
  (forall q : Query,
     passesScalars sqlxIn ->
     IsEmpty (cond q) = true ->
     sqlWhereClause deref sqlxIn jsonizeExpr q = Ok ("", [])).
Proof.
  split.
  - intros c. rewrite nodes_zero. unfold IsEmpty.
    destruct (params c); split; congruence.
  - intros q Hin He. unfold sqlWhereClause, conditionSQLClause, conditionClause.
    rewrite He. rewrite bool_decide_false by (intros H; by apply H).
    by rewrite (Hin "" []).
Qed.

(** *** Nodes in first position *)

(** C10, as the code has it. In first position a node is written without
    a leading connective: its text is the optional [NOT] followed by the
    parenthesised sub-condition or by the comparison, and the text written
    in a later position is this one after ["AND "] or ["OR "]. The outcome,
    text and arguments or panic, is the same whether [isOr] is set or not;
    a panic comes only from the resolution of the field path of a leaf or
    from the nodes of a sub-condition. *)
Theorem first_clause_ignores_isOr (q : Query) (cv : condValue) :
  condValueSQLClause deref jsonizeExpr q (withIsOr cv true) [true]
    = condValueSQLClause deref jsonizeExpr q (withIsOr cv false) [true] /\
  condValueSQLClause deref jsonizeExpr q cv [false]
    = match condValueSQLClause deref jsonizeExpr q cv [true] with
      | Ok (sql, args) => Ok ((if isOr cv then "OR " else "AND ") +:+ sql, args)
      | Panic m => Panic m
      end /\
  condValueSQLClause deref jsonizeExpr q cv [true]
    = match cv with
      | Leaf exprs operator arg _ isNot =>
        match jsonizeExpr (mi (recordSet q)) exprs with
        | Panic m => Panic m
        | Ok exprs =>
          match joinedFieldExpression deref q exprs [] with
          | Panic m => Panic m
          | Ok field =>
            Ok ((if isNot then "NOT " else "") +:+ field +:+ " "
                  +:+ fst (operatorSQL operator arg) +:+ " ",
                [snd (operatorSQL operator arg)])
          end
        end
      | Sub c _ isNot =>
        match conditionSQLClause deref jsonizeExpr q c with
        | Panic m => Panic m
        | Ok (subSQL, subArgs) =>
          Ok ((if isNot then "NOT " else "") +:+ "(" +:+ subSQL +:+ ") ", subArgs)
        end
      end.
Proof.
  split; [|split].
  - destruct cv as [e op a o n|c o n]; reflexivity.
  - destruct cv as [e op a o n|c o n].
    + cbn [condValueSQLClause]. rewrite clausePrefix_later.
      destruct (jsonizeExpr _ e) as [e'|m]; [|done].
      destruct (joinedFieldExpression deref q e' []) as [f|m]; [|done].
      destruct (operatorSQL op a) as [opSql a']. by rewrite append_assoc.
    + cbn [condValueSQLClause]. rewrite clausePrefix_later.
      destruct (conditionClause _ c) as [[sub sa]|m]; [|done].
      by rewrite append_assoc.
  - destruct cv as [e op a o n|c o n].
    + cbn [condValueSQLClause]. rewrite clausePrefix_first.
      destruct (jsonizeExpr _ e) as [e'|m]; [|done].
      destruct (joinedFieldExpression deref q e' []) as [f|m]; [|done].
      by destruct (operatorSQL op a) as [opSql a'].
    + cbn [condValueSQLClause]. rewrite clausePrefix_first.
      unfold conditionSQLClause.
      by destruct (conditionClause _ c) as [[sub sa]|m].
Qed.

(** *** The WHERE clause of a nested condition *)

(** C2. The WHERE clause of [(A = 1 OR B = 2) AND NOT C = 3], where the
    field expressions of the three paths are [fa], [fb] and [fc] and the
    adapter writes equality as [= ?], reads, whitespace apart,
    [WHERE (fa = ? OR fb = ?) AND NOT fc = ?], with the arguments 1, 2, 3 in
    this order. *)
Theorem where_clause_structure (q : Query) (pa pb pc ea eb ec : list string)
    (fa fb fc : string) (o1 o2 : bool) :
  passesScalars sqlxIn ->
  (forall v, operatorSQL OPERATOR_EQUALS v = ("= ?", v)) ->
  jsonizeExpr (mi (recordSet q)) pa = Ok ea ->
  jsonizeExpr (mi (recordSet q)) pb = Ok eb ->
  jsonizeExpr (mi (recordSet q)) pc = Ok ec ->
  joinedFieldExpression deref q ea [] = Ok fa ->
  joinedFieldExpression deref q eb [] = Ok fb ->
  joinedFieldExpression deref q ec [] = Ok fc ->
  cond q = nestedCondition pa pb pc o1 o2 ->
  exists sql,
    sqlWhereClause deref sqlxIn jsonizeExpr q = Ok (sql, [VInt 1; VInt 2; VInt 3]) /\
    sql = "WHERE (" +:+ fa +:+ " = ? OR " +:+ fb +:+ " = ? ) AND NOT "
            +:+ fc +:+ " = ? " /\
    stripSpaces sql
      = stripSpaces ("WHERE " +:+ "(" +:+ fa +:+ " = ? OR " +:+ fb
                       +:+ " = ?) AND NOT " +:+ fc +:+ " = ?").
Proof.
  intros Hin Hop Ha Hb Hc Hfa Hfb Hfc Hq.
  eexists. split; [|split; [reflexivity|]].
  - unfold sqlWhereClause, conditionSQLClause, conditionClause. rewrite Hq.
    cbn. rewrite Ha, Hfa, Hb, Hfb, Hc, Hfc, !Hop. cbn.
    rewrite bool_decide_true.
    + rewrite Hin by reflexivity.
      unfold clausePrefix. cbn. rewrite !andb_false_r.
      by normalize_text.
    + unfold clausePrefix. cbn. rewrite !andb_false_r. by normalize_text.
  - rewrite !stripSpaces_app. reflexivity.
Qed.

(** *** Joins of a path *)

Lemma joinLoop_bound (fieldExprs : list string) :
  forall (i exprsLen : nat) (curMI : miPtr) (curTJ : tableJoin) (al : string)
         (joins js : list tableJoin),
    joinLoop deref fieldExprs i exprsLen curMI curTJ al joins = Ok js ->
    i + length fieldExprs = exprsLen ->
    exists new, js = joins ++ new /\ Forall (fun j => joined j = true) new /\
                length new <= length fieldExprs - 1.
Proof.
  induction fieldExprs as [|expr rest IH];
    intros i exprsLen curMI curTJ al joins js H Hlen.
  - cbn in H. simplify_eq. exists []. by rewrite app_nil_r.
  - cbn in H. destruct (get _ expr) as [fi|]; [|done].
    destruct (relatedModel fi) as [rel|].
    2:{ simplify_eq. exists []. rewrite app_nil_r. repeat split; [done|cbn; lia]. }
    destruct (Nat.eqb_spec i (exprsLen - 1)) as [Hi|Hi].
    { simplify_eq. exists []. rewrite app_nil_r. repeat split; [done|cbn; lia]. }
    apply IH in H as (new & -> & Hj & Hn); [|cbn in Hlen; lia].
    eexists (_ :: new). rewrite <- app_assoc. split; [reflexivity|].
    split; [by constructor|]. cbn in *. lia.
Qed.

Lemma one_relation_joins (q : Query) (r f : string) (rest : list string)
    (fr ff : fieldInfo) (rel : miPtr) :
  get (fields (deref (mi (recordSet q)))) r = Some fr ->
  relatedModel fr = Some rel ->
  get (fields (deref rel)) f = Some ff ->
  relatedModel ff = None \/ rest = [] ->
  generateTableJoins deref q (r :: f :: rest)
    = Ok [rootJoin deref q; firstHop deref q r fr rel].
Proof.
  intros Hr Hrel Hf Hend. unfold generateTableJoins. cbn.
  rewrite Hr, Hrel. cbn. rewrite Hf.
  assert (Hreq : (if required fr then true else false) = required fr)
    by by destruct (required fr).
  rewrite Hreq.
  destruct (relatedModel ff) as [rel'|] eqn:E; [|done].
  destruct Hend as [?| ->]; [done|]. done.
Qed.

(** *** The joins kept by the FROM clause *)

Lemma tablesLoop_spec (q : Query) (fExprs : list (list string)) :
  forall (joinsMap : gmap string bool) (res : string) (seen : list string),
    (forall a, is_Some (joinsMap !! a) <-> a ∈ seen) ->
    tablesLoop deref sqlString q fExprs joinsMap res
    = match allJoins deref q fExprs with
      | Ok all => Ok (res +:+ text (sqlString <$> firstByAlias seen all))
      | Panic m => Panic m
      end.
Proof.
  induction fExprs as [|f rest IH]; intros joinsMap res seen Hrep.
  - cbn. by rewrite append_nil_r.
  - cbn. destruct (generateTableJoins deref q f) as [tJ|m]; [|done].
    destruct (addJoins_spec sqlString tJ joinsMap res seen Hrep) as (jm' & -> & Hrep').
    rewrite (IH jm' _ _ Hrep').
    destruct (allJoins deref q rest) as [js|m]; [|done].
    by rewrite firstByAlias_app, fmap_app, text_app, append_assoc.
Qed.

(** C3. A path that crosses exactly one to-one relation yields the join of
    the table of the query and exactly one join node, flagged INNER exactly
    when the relation is required; whatever the path, its joins number at
    most its segments less one, so the last segment never makes a join; the
    FROM clause writes, of all the joins of all the paths, the first one of
    each alias and no other, so that two paths through the same relation
    share one join (the adapter quoting different names differently). *)
Theorem joins_of_paths (q : Query) :
  (forall (r f : string) (rest : list string) (fr ff : fieldInfo) (rel : miPtr),
     get (fields (deref (mi (recordSet q)))) r = Some fr ->
     relatedModel fr = Some rel ->
     get (fields (deref rel)) f = Some ff ->
     relatedModel ff = None \/ rest = [] ->
     exists j,
       generateTableJoins deref q (r :: f :: rest) = Ok [rootJoin deref q; j] /\
       joined (rootJoin deref q) = false /\
       joined j = true /\
       innerJoin j = required fr /\
       j = firstHop deref q r fr rel) /\
  (forall (path : list string) (joins : list tableJoin),
     generateTableJoins deref q path = Ok joins ->
     exists js,
       joins = rootJoin deref q :: js /\
       Forall (fun j => joined j = true) js /\
       length js <= length path - 1) /\
  (forall fExprs : list (list string),
     exists kept,
       match allJoins deref q fExprs with
       | Ok all =>
         tablesSQL deref sqlString q fExprs = Ok (text (sqlString <$> kept)) /\
         kept = firstByAlias [] all /\
         NoDup (alias <$> kept) /\
         (forall j, j ∈ all -> alias j ∈ alias <$> kept) /\
         (forall j, j ∈ kept ->
            exists pre post, all = pre ++ j :: post /\ alias j ∉ alias <$> pre)
       | Panic m => tablesSQL deref sqlString q fExprs = Panic m
       end) /\
  (forall (r f1 f2 : string) (rest1 rest2 : list string)
          (fr ff1 ff2 : fieldInfo) (rel : miPtr),
     get (fields (deref (mi (recordSet q)))) r = Some fr ->
     relatedModel fr = Some rel ->
     get (fields (deref rel)) f1 = Some ff1 ->
     relatedModel ff1 = None \/ rest1 = [] ->
     get (fields (deref rel)) f2 = Some ff2 ->
     relatedModel ff2 = None \/ rest2 = [] ->
     (forall a b, quoteTableName a = quoteTableName b -> a = b) ->
     tablesSQL deref sqlString q [r :: f1 :: rest1; r :: f2 :: rest2]
       = Ok (sqlString (rootJoin deref q)
               +:+ sqlString (firstHop deref q r fr rel))).
Proof.
  split; [|split; [|split]].
  - intros r f rest fr ff rel Hr Hrel Hf Hend. eexists.
    split; [by apply (one_relation_joins q r f rest fr ff rel)|].
    by repeat split.
  - intros path joins H. unfold generateTableJoins in H.
    apply joinLoop_bound in H as (new & -> & Hj & Hn); [|lia].
    by exists new.
  - intros fExprs. unfold tablesSQL.
    rewrite (tablesLoop_spec q fExprs ∅ "" []).
    2:{ intros a. rewrite lookup_empty, elem_of_nil. split; [by intros []|done]. }
    destruct (allJoins deref q fExprs) as [all|m]; [|by exists []].
    exists (firstByAlias [] all). split; [by rewrite append_nil_l|].
    split; [done|]. split; [apply firstByAlias_fresh|]. split.
    + intros j Hj. destruct (firstByAlias_covers all [] j Hj) as [H|H]; [|done].
      by apply elem_of_nil in H.
    + intros j Hj. by apply (firstByAlias_first all []).
  - intros r f1 f2 rest1 rest2 fr ff1 ff2 rel Hr Hrel Hf1 He1 Hf2 He2 Hinj.
    assert (Hal : alias (firstHop deref q r fr rel) ≠ alias (rootJoin deref q)).
    { cbn. intros Heq. apply Hinj, append_eq_self in Heq. discriminate Heq. }
    unfold tablesSQL. cbn [tablesLoop].
    rewrite (one_relation_joins q r f1 rest1 fr ff1 rel Hr Hrel Hf1 He1).
    rewrite (one_relation_joins q r f2 rest2 fr ff2 rel Hr Hrel Hf2 He2).
    cbn [addJoins]. rewrite lookup_empty.
    rewrite lookup_insert_ne by congruence. rewrite lookup_empty.
    cbn [addJoins]. rewrite lookup_insert_ne by congruence.
    rewrite lookup_insert_eq, lookup_insert_eq.
    by rewrite append_nil_l.
Qed.

(** *** INSERT and UPDATE *)

Lemma insertLoop_spec (q : Query) (kvs : list (string * value)) :
  forall (done rest : list string) (vdone vrest : SQLParams),
    length done = length vdone ->
    length kvs <= length rest ->
    length kvs <= length vrest ->
    insertLoop deref q kvs (length done) (done ++ rest) (vdone ++ vrest)
    = match storageNames (deref (mi (recordSet q))) kvs with
      | None => Panic msgUnknownField
      | Some names =>
        Ok (done ++ names ++ drop (length kvs) rest,
            vdone ++ kvs.*2 ++ drop (length kvs) vrest)
      end.
Proof.
  induction kvs as [|[k v] kvs IH]; intros done rest vdone vrest Hd Hr Hv.
  - done.
  - cbn [insertLoop storageNames].
    destruct (get (fields (deref (mi (recordSet q)))) k) as [fi|]; [|done].
    destruct rest as [|r rest]; [cbn in Hr; lia|].
    destruct vrest as [|w vrest]; [cbn in Hv; lia|].
    rewrite assign_next. rewrite Hd, assign_next.
    replace (S (length vdone)) with (length (done ++ [json fi]))
      by (rewrite length_app; cbn; lia).
    rewrite IH.
    + destruct (storageNames _ kvs) as [names|]; [|done].
      cbn. by rewrite <- !app_assoc.
    + rewrite !length_app. cbn. lia.
    + cbn in Hr. lia.
    + cbn in Hv. lia.
Qed.

Lemma updateLoop_spec (q : Query) (kvs : list (string * value)) :
  forall (done rest : list string) (vdone vrest : SQLParams),
    length done = length vdone ->
    length kvs <= length rest ->
    length kvs <= length vrest ->
    updateLoop deref q kvs (length done) (done ++ rest) (vdone ++ vrest)
    = match storageNames (deref (mi (recordSet q))) kvs with
      | None => Panic msgUnknownField
      | Some names =>
        Ok (done ++ ((fun n => n +:+ " = ?") <$> names) ++ drop (length kvs) rest,
            vdone ++ kvs.*2 ++ drop (length kvs) vrest)
      end.
Proof.
  induction kvs as [|[k v] kvs IH]; intros done rest vdone vrest Hd Hr Hv.
  - done.
  - cbn [updateLoop storageNames].
    destruct (get (fields (deref (mi (recordSet q)))) k) as [fi|]; [|done].
    destruct rest as [|r rest]; [cbn in Hr; lia|].
    destruct vrest as [|w vrest]; [cbn in Hv; lia|].
    rewrite assign_next. rewrite Hd, assign_next.
    replace (S (length vdone)) with (length (done ++ [json fi +:+ " = ?"]))
      by (rewrite length_app; cbn; lia).
    rewrite IH.
    + destruct (storageNames _ kvs) as [names|]; [|done].
      cbn. by rewrite <- !app_assoc.
    + rewrite !length_app. cbn. lia.
    + cbn in Hr. lia.
    + cbn in Hv. lia.
Qed.

Lemma rangeOrder_length (data : FieldMap) :
  rangesOver rangeOrder -> length (rangeOrder data) = size data.
Proof. intros H. by rewrite (H data), length_map_to_list. Qed.

Lemma rangeOrder_elem (data : FieldMap) (k : string) (v : value) :
  rangesOver rangeOrder -> (k, v) ∈ rangeOrder data <-> data !! k = Some v.
Proof. intros H. by rewrite (H data), elem_of_map_to_list. Qed.

Lemma insertLoop_all (q : Query) (data : FieldMap) :
  rangesOver rangeOrder ->
  insertLoop deref q (rangeOrder data) 0 (replicate (size data) "")
    (replicate (size data) VNil)
  = match storageNames (deref (mi (recordSet q))) (rangeOrder data) with
    | None => Panic msgUnknownField
    | Some names => Ok (names, (rangeOrder data).*2)
    end.
Proof.
  intros H.
  etrans.
  { apply (insertLoop_spec q (rangeOrder data) [] _ [] _ eq_refl);
      rewrite length_replicate, rangeOrder_length; done. }
  destruct (storageNames _ _) as [names|]; [|done].
  rewrite !drop_replicate, rangeOrder_length, Nat.sub_diag by done.
  cbn. by rewrite !app_nil_r.
Qed.

Lemma updateLoop_all (q : Query) (data : FieldMap) :
  rangesOver rangeOrder ->
  updateLoop deref q (rangeOrder data) 0 (replicate (size data) "")
    (replicate (size data) VNil)
  = match storageNames (deref (mi (recordSet q))) (rangeOrder data) with
    | None => Panic msgUnknownField
    | Some names =>
      Ok ((fun n => n +:+ " = ?") <$> names, (rangeOrder data).*2)
    end.
Proof.
  intros H.
  etrans.
  { apply (updateLoop_spec q (rangeOrder data) [] _ [] _ eq_refl);
      rewrite length_replicate, rangeOrder_length; done. }
  destruct (storageNames _ _) as [names|]; [|done].
  rewrite !drop_replicate, rangeOrder_length, Nat.sub_diag by done.
  cbn. by rewrite !app_nil_r.
Qed.

(** C6. Whatever the order in which the map is ranged over, [insertQuery]
    panics exactly when the map is empty or one of its keys is not a field of
    the model. Otherwise its text is [INSERT INTO], the quoted table, the
    storage names of the keys, as many placeholders as the map has entries
    and [RETURNING id]; at every position the column and the argument come
    from the same entry of the map, and every entry is used once. *)
Theorem insert_query (q : Query) (data : FieldMap) :
  rangesOver rangeOrder ->
  (isPanic (insertQuery deref rangeOrder q data) = true <->
   data = ∅ \/
   exists k, is_Some (data !! k) /\
             get (fields (deref (mi (recordSet q)))) k = None) /\
  (forall sql vals,
     insertQuery deref rangeOrder q data = Ok (sql, vals) ->
     exists cols kvs,
       sql = "INSERT INTO "
               +:+ quoteTableName (tableName (deref (mi (recordSet q))))
               +:+ " (" +:+ Join cols ", " +:+ ") VALUES ("
               +:+ Join (replicate (size data) "?") ", " +:+ ") RETURNING id" /\
       length cols = size data /\
       length vals = size data /\
       kvs ≡ₚ map_to_list data /\
       vals = kvs.*2 /\
       storageNames (deref (mi (recordSet q))) kvs = Some cols /\
       (forall i, i < size data ->
          exists k v fi,
            data !! k = Some v /\
            get (fields (deref (mi (recordSet q)))) k = Some fi /\
            cols !! i = Some (json fi) /\
            vals !! i = Some v)).
Proof.
  intros H. unfold insertQuery.
  destruct (Nat.eqb_spec (size data) 0) as [Hz|Hnz].
  { apply map_size_empty_iff in Hz. split; [by split; [left|]|done]. }
  rewrite (insertLoop_all q data H).
  destruct (storageNames _ (rangeOrder data)) as [names|] eqn:E.
  - split.
    + split; [done|]. intros [->|(k & [v Hv] & Hk)]; [done|].
      assert (storageNames (deref (mi (recordSet q))) (rangeOrder data) = None)
        as Hn; [|by rewrite E in Hn].
      apply storageNames_None. exists k, v. by rewrite rangeOrder_elem.
    + intros sql vals Heq. simplify_eq.
      destruct (storageNames_Some _ _ _ E) as [Hlen Hpos].
      exists names, (rangeOrder data).
      rewrite length_fmap, Hlen, rangeOrder_length by done.
      split.
      { destruct (size data) as [|n] eqn:Hs; [done|].
        cbn [Nat.sub]. rewrite Nat.sub_0_r. by rewrite placeholders. }
      split; [done|]. split; [done|]. split; [apply H|]. split; [done|].
      split; [done|]. intros i Hi.
      destruct (lookup_lt_is_Some_2 (rangeOrder data) i) as [[k v] Hkv].
      { by rewrite rangeOrder_length. }
      destruct (Hpos i k v Hkv) as (fi & Hfi & Hn).
      exists k, v, fi. split.
      { apply rangeOrder_elem; [done|]. by eapply list_elem_of_lookup_2. }
      split; [done|]. split; [done|].
      by rewrite list_lookup_fmap, Hkv.
  - split; [|done]. split; [|done]. intros _. right.
    apply storageNames_None in E as (k & v & Hkv & Hn).
    exists k. split; [|done]. exists v. by apply rangeOrder_elem.
Qed.

(** C7. For a map that is not empty, [updateQuery] panics on a key that is
    not a field of the model and otherwise compiles the WHERE clause with
    [sqlWhereClause]: it panics when that one does, and else its text ends
    with the text of [sqlWhereClause], and its arguments are the values of
    the map, in the order of the SET columns, followed by the arguments of
    [sqlWhereClause]. *)
Theorem update_query (q : Query) (data : FieldMap) :
  rangesOver rangeOrder ->
  data ≠ ∅ ->
  updateQuery deref sqlxIn jsonizeExpr rangeOrder q data
  = match storageNames (deref (mi (recordSet q))) (rangeOrder data) with
    | None => Panic msgUnknownField
    | Some names =>
      match sqlWhereClause deref sqlxIn jsonizeExpr q with
      | Panic m => Panic m
      | Ok (whereSQL, args) =>
        Ok ("UPDATE " +:+ quoteTableName (tableName (deref (mi (recordSet q))))
              +:+ " SET " +:+ Join ((fun n => n +:+ " = ?") <$> names) ", "
              +:+ " " +:+ whereSQL,
            (rangeOrder data).*2 ++ args)
      end
    end.
Proof.
  intros H Hne. unfold updateQuery.
  destruct (Nat.eqb_spec (size data) 0) as [Hz|Hnz].
  { by apply map_size_empty_iff in Hz. }
  rewrite (updateLoop_all q data H).
  by destruct (storageNames _ (rangeOrder data)).
Qed.

(** *** Conditions: arguments and texts *)

Lemma clause_args (q : Query) (cv : condValue) :
  forall f s a,
    condValueSQLClause deref jsonizeExpr q cv f = Ok (s, a) -> a = leafArgs cv.
Proof.
  induction cv as [e op arg o n|ps o n IH] using condValue_nodes_ind;
    intros f s a H; cbn [condValueSQLClause] in H.
  - destruct (jsonizeExpr _ e) as [e'|m]; [|done].
    destruct (joinedFieldExpression deref q e' []) as [fld|m]; [|done].
    cbn [leafArgs]. destruct (operatorSQL op arg) as [opSql arg'].
    by simplify_eq.
  - unfold conditionClause in H. cbn [leafArgs].
    destruct (IsEmpty (Cond ps)) eqn:E.
    + simplify_eq. by destruct ps.
    + destruct (rangeParams _ _ _ _ _) as [[sub sa]|m] eqn:Er; [|done].
      simplify_eq. by apply rangeParams_args in Er.
Qed.

Lemma clause_nonempty (q : Query) (cv : condValue) :
  forall f s a,
    condValueSQLClause deref jsonizeExpr q cv f = Ok (s, a) -> s ≠ "".
Proof.
  intros f s a H Hs. subst s. destruct cv as [e op arg o n|c o n];
    cbn [condValueSQLClause] in H.
  - destruct (jsonizeExpr _ e) as [e'|m]; [|done].
    destruct (joinedFieldExpression deref q e' []) as [fld|m]; [|done].
    destruct (operatorSQL op arg) as [opSql arg']. simplify_eq.
    repeat match goal with
           | H : _ +:+ _ = "" |- _ => apply append_empty in H as [_ H]
           end.
    discriminate.
  - destruct (conditionClause _ c) as [[sub sa]|m]; [|done]. simplify_eq.
    repeat match goal with
           | H : _ +:+ _ = "" |- _ => apply append_empty in H as [_ H]
           end.
    discriminate.
Qed.

Lemma clause_text (q : Query) (a0 : value) (cv : condValue) :
  (forall op a b, fst (operatorSQL op a) = fst (operatorSQL op b)) ->
  forall f,
    textOf (condValueSQLClause deref jsonizeExpr q cv f)
    = textOf (condValueSQLClause deref jsonizeExpr q (withArgs a0 cv) f).
Proof.
  intros Hop.
  induction cv as [e op arg o n|ps o n IH] using condValue_nodes_ind; intros f.
  - cbn [withArgs condValueSQLClause].
    change (clausePrefix (Leaf e op a0 o n)) with (clausePrefix (Leaf e op arg o n)).
    destruct (jsonizeExpr _ e) as [e'|m]; [|done].
    destruct (joinedFieldExpression deref q e' []) as [fld|m]; [|done].
    specialize (Hop op arg a0).
    destruct (operatorSQL op arg) as [s1 a1], (operatorSQL op a0) as [s2 a2].
    cbn in Hop. by subst.
  - cbn [withArgs condValueSQLClause].
    change (clausePrefix (Sub (Cond (map (withArgs a0) ps)) o n))
      with (clausePrefix (Sub (Cond ps) o n)).
    assert (E : textOf (conditionClause (condValueSQLClause deref jsonizeExpr q)
                          (Cond ps))
                = textOf (conditionClause (condValueSQLClause deref jsonizeExpr q)
                            (Cond (map (withArgs a0) ps)))).
    { unfold conditionClause. destruct ps as [|v ps]; [done|].
      change (IsEmpty (Cond (map (withArgs a0) (v :: ps)))) with false.
      change (IsEmpty (Cond (v :: ps))) with false. cbn [params].
      by apply rangeParams_text. }
    destruct (conditionClause _ (Cond ps)) as [[s1 a1]|m1],
             (conditionClause _ (Cond (map (withArgs a0) ps))) as [[s2 a2]|m2];
      cbn in E; by simplify_eq.
Qed.

(** X7. The arguments of a compiled condition are those of its leaves, one
    for each leaf, in the order of the leaves from left to right, through
    all the sub-conditions. *)
Theorem condition_args_in_order (q : Query) (c : Condition) (sql : string)
    (args : SQLParams) :
  conditionSQLClause deref jsonizeExpr q c = Ok (sql, args) ->
  args = concat (map leafArgs (params c)).
Proof.
  unfold conditionSQLClause, conditionClause. intros H.
  destruct (IsEmpty c) eqn:E.
  - simplify_eq. unfold IsEmpty in E. by destruct (params c).
  - apply rangeParams_args in H; [done|].
    apply Forall_forall. intros v _ f s a. apply clause_args.
Qed.

(** X8. The WHERE keyword is written exactly when the condition has a
    node: a condition that compiles gives the empty text if and only if it
    is empty, and the text of [sqlWhereClause] is then empty, and else
    ["WHERE "] followed by the text of the condition ([sqlx.In] passing
    a query without slice arguments through). *)
Theorem where_iff_nodes (q : Query) (sql : string) (args : SQLParams) :
  passesScalars sqlxIn ->
  conditionSQLClause deref jsonizeExpr q (cond q) = Ok (sql, args) ->
  forallb isScalar args = true ->
  (sql = "" <-> params (cond q) = []) /\
  sqlWhereClause deref sqlxIn jsonizeExpr q
    = Ok (match params (cond q) with [] => "" | _ :: _ => "WHERE " +:+ sql end,
          args).
Proof.
  intros Hin H Hargs.
  assert (Hiff : sql = "" <-> params (cond q) = []).
  { unfold conditionSQLClause, conditionClause, IsEmpty in H.
    destruct (params (cond q)) as [|v ps] eqn:E; [by simplify_eq|].
    split; [|done]. intros Hs. exfalso.
    apply rangeParams_nonempty in H; [done| |by left].
    apply Forall_forall. intros w _ f s a. apply clause_nonempty. }
  split; [exact Hiff|]. unfold sqlWhereClause. rewrite H.
  destruct (params (cond q)) as [|v ps].
  - rewrite (proj2 Hiff eq_refl).
    rewrite bool_decide_false by (intros Hx; by apply Hx).
    by rewrite Hin.
  - rewrite bool_decide_true by (intros Hs; by apply Hiff in Hs).
    by rewrite Hin.
Qed.

(** X9. When the text the adapter writes for an operator does not depend
    on the argument, the text of a compiled condition does not depend on the
    arguments of its leaves: it is the text of the same condition with every
    argument replaced by any one value, and panics are the same. *)
Theorem condition_text_ignores_args (q : Query) (c : Condition) (a0 : value) :
  (forall op a b, fst (operatorSQL op a) = fst (operatorSQL op b)) ->
  textOf (conditionSQLClause deref jsonizeExpr q c)
  = textOf (conditionSQLClause deref jsonizeExpr q
              (Cond (map (withArgs a0) (params c)))).
Proof.
  intros Hop. unfold conditionSQLClause, conditionClause, IsEmpty.
  destruct c as [[|v ps]]; [done|]. cbn [params map].
  apply (rangeParams_text _ (withArgs a0) (v :: ps)).
  apply Forall_forall. intros w _ f. by apply clause_text.
Qed.

(** *** Field expressions and the order of the joins *)

Lemma joinLoop_depends (fieldExprs : list string) :
  forall (i exprsLen : nat) (curMI : miPtr) (curTJ : tableJoin) (al : string)
         (joins js : list tableJoin),
    joinLoop deref fieldExprs i exprsLen curMI curTJ al joins = Ok js ->
    exists new, js = joins ++ new /\
                forall seen, alias curTJ ∈ seen -> dependsOn seen new.
Proof.
  induction fieldExprs as [|expr rest IH];
    intros i exprsLen curMI curTJ al joins js H.
  - cbn in H. simplify_eq. exists []. by rewrite app_nil_r.
  - cbn in H. destruct (get _ expr) as [fi|]; [|done].
    destruct (relatedModel fi) as [rel|].
    2:{ simplify_eq. exists []. by rewrite app_nil_r. }
    destruct (i =? exprsLen - 1)%nat.
    { simplify_eq. exists []. by rewrite app_nil_r. }
    apply IH in H as (new & -> & Hnew).
    eexists (_ :: new). rewrite <- app_assoc. split; [reflexivity|].
    intros seen Hseen. cbn. split; [done|].
    apply Hnew. by apply elem_of_cons; left.
Qed.

Lemma generateTableJoins_depends (q : Query) (path : list string)
    (joins : list tableJoin) :
  generateTableJoins deref q path = Ok joins ->
  (exists js, joins = rootJoin deref q :: js) /\
  forall seen, dependsOn seen joins.
Proof.
  unfold generateTableJoins. intros H.
  apply joinLoop_depends in H as (new & -> & Hnew).
  split; [by exists new|]. intros seen. cbn. split; [done|].
  apply Hnew. by apply elem_of_cons; left.
Qed.

Lemma allJoins_depends (q : Query) (fExprs : list (list string)) :
  forall all,
    allJoins deref q fExprs = Ok all ->
    dependsOn [] all /\
    (fExprs ≠ [] -> exists rest, all = rootJoin deref q :: rest).
Proof.
  induction fExprs as [|f rest IH]; intros all H; cbn in H.
  - by simplify_eq.
  - destruct (generateTableJoins deref q f) as [tJ|m] eqn:E; [|done].
    destruct (allJoins deref q rest) as [js|m]; [|done]. simplify_eq.
    destruct (generateTableJoins_depends q f tJ E) as [[new ->] Hd].
    destruct (IH js eq_refl) as [Hjs _]. split.
    + by apply dependsOn_app.
    + intros _. by eexists.
Qed.

Lemma generateTableJoins_bound (q : Query) (path : list string)
    (joins : list tableJoin) :
  generateTableJoins deref q path = Ok joins ->
  exists new, joins = rootJoin deref q :: new /\
              (length new <= length path - 1)%nat.
Proof.
  unfold generateTableJoins. intros H.
  apply joinLoop_bound in H as (new & -> & _ & Hlen); [|lia].
  by exists new.
Qed.

(** X10. [joinedFieldExpression] panics on the empty path, with an index
    out of range, and on a path that is not empty it panics only as
    [generateTableJoins] does; else its text is the alias of the last join,
    a dot and the segment at the position of this join, followed, when an
    alias is asked for, by [AS] and the segments joined by the separator. *)
Theorem field_expression (q : Query) (exprs : list string) (withAlias : list bool) :
  (exprs = [] -> joinedFieldExpression deref q exprs withAlias = Panic msgIndex) /\
  (forall m, generateTableJoins deref q exprs = Panic m ->
             joinedFieldExpression deref q exprs withAlias = Panic m) /\
  (forall joins,
     exprs ≠ [] ->
     generateTableJoins deref q exprs = Ok joins ->
     exists j e,
       last joins = Some j /\
       exprs !! (length joins - 1)%nat = Some e /\
       joinedFieldExpression deref q exprs withAlias
       = Ok (alias j +:+ "." +:+ e
               +:+ match withAlias with
                   | true :: _ => " AS " +:+ Join exprs sqlSep
                   | _ => ""
                   end)).
Proof.
  split; [|split].
  - by intros ->.
  - intros m H. unfold joinedFieldExpression. by rewrite H.
  - intros joins Hne H. unfold joinedFieldExpression. rewrite H.
    apply generateTableJoins_bound in H as (new & -> & Hlen).
    destruct (lookup_lt_is_Some_2 (rootJoin deref q :: new) (length new))
      as [j Hj]; [cbn; lia|].
    destruct (lookup_lt_is_Some_2 exprs (length new)) as [e He].
    { destruct exprs; [done|]. cbn in *. lia. }
    exists j, e.
    cbn [length]. rewrite Nat.sub_succ, Nat.sub_0_r, Hj, He.
    split.
    { rewrite last_lookup. cbn [length Init.Nat.pred]. done. }
    split; [done|].
    destruct withAlias as [|[|] ?]; by rewrite ?append_nil_r.
Qed.

(** X11. In a path, the segments that follow a field that is not a
    relation are neither resolved nor checked: the path has the join of
    the table of the query only, and its field expression is that of the
    field. *)
Theorem segments_after_field_ignored (q : Query) (f : string)
    (rest : list string) (fi : fieldInfo) :
  get (fields (deref (mi (recordSet q)))) f = Some fi ->
  relatedModel fi = None ->
  generateTableJoins deref q (f :: rest) = Ok [rootJoin deref q] /\
  joinedFieldExpression deref q (f :: rest) []
    = Ok (alias (rootJoin deref q) +:+ "." +:+ f).
Proof.
  intros Hf Hrel.
  assert (H : generateTableJoins deref q (f :: rest) = Ok [rootJoin deref q]).
  { unfold generateTableJoins. cbn. by rewrite Hf, Hrel. }
  split; [exact H|]. unfold joinedFieldExpression. by rewrite H.
Qed.

(** X12. The alias of a join is made of table names only: two different
    relation fields of the model of the query that lead to models of the
    same table get the same alias, and of their two joins the FROM clause
    writes the first one only (the adapter quoting different names
    differently). *)
Theorem same_table_relations_share_alias (q : Query) (r1 r2 f1 f2 : string)
    (rest1 rest2 : list string) (fr1 fr2 ff1 ff2 : fieldInfo) (rel1 rel2 : miPtr) :
  get (fields (deref (mi (recordSet q)))) r1 = Some fr1 ->
  relatedModel fr1 = Some rel1 ->
  get (fields (deref rel1)) f1 = Some ff1 ->
  relatedModel ff1 = None \/ rest1 = [] ->
  get (fields (deref (mi (recordSet q)))) r2 = Some fr2 ->
  relatedModel fr2 = Some rel2 ->
  get (fields (deref rel2)) f2 = Some ff2 ->
  relatedModel ff2 = None \/ rest2 = [] ->
  tableName (deref rel1) = tableName (deref rel2) ->
  r1 ≠ r2 ->
  (forall a b, quoteTableName a = quoteTableName b -> a = b) ->
  alias (firstHop deref q r1 fr1 rel1) = alias (firstHop deref q r2 fr2 rel2) /\
  firstHop deref q r1 fr1 rel1 ≠ firstHop deref q r2 fr2 rel2 /\
  tablesSQL deref sqlString q [r1 :: f1 :: rest1; r2 :: f2 :: rest2]
    = Ok (sqlString (rootJoin deref q)
            +:+ sqlString (firstHop deref q r1 fr1 rel1)).
Proof.
  intros Hr1 Hrel1 Hf1 He1 Hr2 Hrel2 Hf2 He2 Ht Hne Hinj.
  assert (Hal : alias (firstHop deref q r1 fr1 rel1)
                = alias (firstHop deref q r2 fr2 rel2)).
  { cbn. by rewrite Ht. }
  assert (Hroot : alias (firstHop deref q r1 fr1 rel1) ≠ alias (rootJoin deref q)).
  { cbn. intros Heq. apply Hinj, append_eq_self in Heq. discriminate Heq. }
  split; [exact Hal|]. split.
  { intros Heq. apply Hne. by injection Heq. }
  unfold tablesSQL. cbn [tablesLoop].
  rewrite (one_relation_joins q r1 f1 rest1 fr1 ff1 rel1 Hr1 Hrel1 Hf1 He1).
  rewrite (one_relation_joins q r2 f2 rest2 fr2 ff2 rel2 Hr2 Hrel2 Hf2 He2).
  cbn [addJoins]. rewrite lookup_empty.
  rewrite lookup_insert_ne by congruence. rewrite lookup_empty.
  cbn [addJoins]. rewrite lookup_insert_ne by congruence.
  rewrite lookup_insert_eq, <- Hal, lookup_insert_eq.
  by rewrite append_nil_l.
Qed.

(** X13. The FROM clause writes the joins in an order in which every join
    comes after the join it refers to as its other table, and, when there
    is a path at all, the table of the query comes first. *)
Theorem from_clause_order (q : Query) (fExprs : list (list string))
    (all : list tableJoin) :
  allJoins deref q fExprs = Ok all ->
  tablesSQL deref sqlString q fExprs
    = Ok (text (sqlString <$> firstByAlias [] all)) /\
  dependsOn [] (firstByAlias [] all) /\
  (fExprs ≠ [] ->
   exists rest, firstByAlias [] all = rootJoin deref q :: rest).
Proof.
  intros H. destruct (allJoins_depends q fExprs all H) as [Hd Hroot].
  split; [|split].
  - unfold tablesSQL. rewrite (tablesLoop_spec q fExprs ∅ "" []).
    + by rewrite H, append_nil_l.
    + intros a. rewrite lookup_empty, elem_of_nil. split; [by intros []|done].
  - by apply dependsOn_firstByAlias.
  - intros Hne. destruct (Hroot Hne) as [rest ->]. cbn.
    rewrite bool_decide_false by apply not_elem_of_nil. by eexists.
Qed.

(** X14. Relations are crossed hop by hop: a path through two relations
    has, after the join of the table of the query, one join for each hop,
    flagged INNER exactly when the relation of this hop is required,
    referring to the join of the hop before, on the field of the relation,
    under an alias made of the names of the tables crossed so far. *)
Theorem two_hops (q : Query) (r1 r2 f : string) (rest : list string)
    (fr1 fr2 ff : fieldInfo) (rel1 rel2 : miPtr) :
  get (fields (deref (mi (recordSet q)))) r1 = Some fr1 ->
  relatedModel fr1 = Some rel1 ->
  get (fields (deref rel1)) r2 = Some fr2 ->
  relatedModel fr2 = Some rel2 ->
  get (fields (deref rel2)) f = Some ff ->
  relatedModel ff = None \/ rest = [] ->
  generateTableJoins deref q (r1 :: r2 :: f :: rest)
  = Ok [rootJoin deref q;
        firstHop deref q r1 fr1 rel1;
        TableJoin (quoteTableName (tableName (deref rel2))) true (required fr2)
          "id" (Some (firstHop deref q r1 fr1 rel1)) r2
          (quoteTableName
             ((tableName (deref (mi (recordSet q))) +:+ sqlSep
                 +:+ tableName (deref rel1))
                +:+ sqlSep +:+ tableName (deref rel2)))].
Proof.
  intros Hr1 Hrel1 Hr2 Hrel2 Hf Hend. unfold generateTableJoins. cbn.
  rewrite Hr1, Hrel1. cbn. rewrite Hr2, Hrel2. cbn. rewrite Hf.
  assert (Hreq : forall b : bool, (if b then true else false) = b)
    by by intros [].
  rewrite !Hreq.
  destruct (relatedModel ff) as [rel'|] eqn:E; [|done].
  destruct Hend as [?| ->]; done.
Qed.

(** *** Statements without a condition *)

Lemma sqlWhereClause_empty (q : Query) :
  passesScalars sqlxIn ->
  params (cond q) = [] ->
  sqlWhereClause deref sqlxIn jsonizeExpr q = Ok ("", []).
Proof.
  intros Hin He. unfold sqlWhereClause, conditionSQLClause, conditionClause, IsEmpty.
  rewrite He. rewrite bool_decide_false by (intros H; by apply H).
  by rewrite (Hin "" []).
Qed.

(** X15. On a query without condition, [deleteQuery] and [updateQuery]
    write no WHERE clause, so that the statement is about every row of the
    table: the DELETE text ends after the table, and the UPDATE text after
    the SET columns, and the only arguments are the values to set. *)
Theorem no_condition_all_rows (q : Query) (data : FieldMap) (names : list string) :
  passesScalars sqlxIn ->
  rangesOver rangeOrder ->
  params (cond q) = [] ->
  data ≠ ∅ ->
  storageNames (deref (mi (recordSet q))) (rangeOrder data) = Some names ->
  deleteQuery deref sqlxIn jsonizeExpr q
    = Ok ("DELETE FROM " +:+ quoteTableName (tableName (deref (mi (recordSet q))))
            +:+ " ", []) /\
  updateQuery deref sqlxIn jsonizeExpr rangeOrder q data
    = Ok ("UPDATE " +:+ quoteTableName (tableName (deref (mi (recordSet q))))
            +:+ " SET " +:+ Join ((fun n => n +:+ " = ?") <$> names) ", " +:+ " ",
          (rangeOrder data).*2).
Proof.
  intros Hin Hr He Hne Hn. split.
  - unfold deleteQuery. by rewrite (sqlWhereClause_empty q Hin He).
  - unfold updateQuery.
    destruct (Nat.eqb_spec (size data) 0) as [Hz|_];
      [by apply map_size_empty_iff in Hz|].
    rewrite (updateLoop_all q data Hr), Hn, (sqlWhereClause_empty q Hin He).
    by rewrite app_nil_r.
Qed.

(** X23. A sub-condition without nodes is written as a pair of empty
    parentheses, after its connective and its [NOT] if any, with no
    argument and without a panic, in first position as in a later one. *)
Theorem empty_sub_condition (q : Query) (o n : bool) (first : list bool) :
  condValueSQLClause deref jsonizeExpr q (Sub (Cond []) o n) first
  = Ok (clausePrefix (Sub (Cond []) o n)
          (match first with b :: _ => b | [] => false end) +:+ "() ",
        []) /\
  conditionSQLClause deref jsonizeExpr q (Cond [Sub (Cond []) o n])
  = Ok ((if n then "NOT " else "") +:+ "() ", []).
Proof.
  split; [reflexivity|].
  unfold conditionSQLClause, conditionClause. cbn.
  unfold clausePrefix. cbn. rewrite andb_false_r. by destruct n.
Qed.

End CompilerSpec.

(** *** The statements on the example catalog *)

Lemma scalarIn_passes : passesScalars scalarIn.
Proof. intros sql args H. unfold scalarIn. by rewrite H. Qed.

Lemma postgres_quote_inj (a b : string) :
  quoteTableName (dbAdapter := postgres) a = quoteTableName (dbAdapter := postgres) b ->
  a = b.
Proof.
  cbn. intros H. apply (inj (String.append dquote)) in H.
  by apply (append_cancel_r a b dquote).
Qed.

Lemma map_to_list_ranges : rangesOver map_to_list.
Proof. by intros data. Qed.

Lemma empty_condition_no_where_witness :
  passesScalars scalarIn /\
  IsEmpty (cond (employees (Cond []))) = true /\
  sqlWhereClause (adapter := postgres) exampleCatalog scalarIn sameNames
    (employees (Cond [])) = Ok ("", []).
Proof.
  split; [exact scalarIn_passes|]. split; [reflexivity|].
  apply (proj2 (@empty_condition_no_where postgres exampleCatalog scalarIn
                  sameNames));
    [exact scalarIn_passes|reflexivity].
Defined.

Lemma where_clause_structure_witness :
  joinedFieldExpression (adapter := postgres) exampleCatalog
    (employees (nestedCondition ["name"] ["age"] ["department_id"] true true))
    ["department_id"] [] = Ok (dquote +:+ "employee" +:+ dquote +:+ ".department_id") /\
  exists sql,
    sqlWhereClause (adapter := postgres) exampleCatalog scalarIn sameNames
      (employees (nestedCondition ["name"] ["age"] ["department_id"] true true))
      = Ok (sql, [VInt 1; VInt 2; VInt 3]) /\
    sql = "WHERE (" +:+ (dquote +:+ "employee" +:+ dquote +:+ ".name")
            +:+ " = ? OR " +:+ (dquote +:+ "employee" +:+ dquote +:+ ".age")
            +:+ " = ? ) AND NOT "
            +:+ (dquote +:+ "employee" +:+ dquote +:+ ".department_id")
            +:+ " = ? " /\
    stripSpaces sql
      = stripSpaces ("WHERE " +:+ "("
                       +:+ (dquote +:+ "employee" +:+ dquote +:+ ".name")
                       +:+ " = ? OR "
                       +:+ (dquote +:+ "employee" +:+ dquote +:+ ".age")
                       +:+ " = ?) AND NOT "
                       +:+ (dquote +:+ "employee" +:+ dquote +:+ ".department_id")
                       +:+ " = ?").
Proof.
  split; [reflexivity|].
  apply (@where_clause_structure postgres exampleCatalog scalarIn sameNames
           (employees (nestedCondition ["name"] ["age"] ["department_id"] true true))
           ["name"] ["age"] ["department_id"]
           ["name"] ["age"] ["department_id"] _ _ _ true true);
    [exact scalarIn_passes|reflexivity..].
Defined.

Lemma joins_of_paths_witness :
  (exists j,
     generateTableJoins (adapter := postgres) exampleCatalog (employees (Cond []))
       ["manager_id"; "name"]
       = Ok [rootJoin (adapter := postgres) exampleCatalog (employees (Cond [])); j] /\
     joined j = true /\ innerJoin j = true) /\
  (exists j,
     generateTableJoins (adapter := postgres) exampleCatalog (employees (Cond []))
       ["department_id"; "code"]
       = Ok [rootJoin (adapter := postgres) exampleCatalog (employees (Cond [])); j] /\
     joined j = true /\ innerJoin j = false) /\
  tablesSQL (adapter := postgres) exampleCatalog exampleSQLString
    (employees (Cond [])) [["department_id"; "name"]; ["department_id"; "code"]]
  = Ok (exampleSQLString
          (rootJoin (adapter := postgres) exampleCatalog (employees (Cond [])))
        +:+ exampleSQLString
              (firstHop (adapter := postgres) exampleCatalog (employees (Cond []))
                 "department_id" (FieldInfo "department_id" false (Some 1)) 1)).
Proof.
  destruct (@joins_of_paths postgres exampleCatalog exampleSQLString
              (employees (Cond []))) as (Hone & _ & _ & Hshared).
  split; [|split].
  - destruct (Hone "manager_id" "name" [] (FieldInfo "manager_id" true (Some 0))
                (FieldInfo "name" true None) 0 eq_refl eq_refl eq_refl
                (or_introl eq_refl)) as (j & Hj & _ & Hjoined & Hinner & _).
    exists j. by repeat split.
  - destruct (Hone "department_id" "code" []
                (FieldInfo "department_id" false (Some 1))
                (FieldInfo "code" false None) 1 eq_refl eq_refl eq_refl
                (or_introl eq_refl)) as (j & Hj & _ & Hjoined & Hinner & _).
    exists j. by repeat split.
  - apply (Hshared "department_id" "name" "code" [] []
             (FieldInfo "department_id" false (Some 1))
             (FieldInfo "name" true None) (FieldInfo "code" false None) 1);
      [reflexivity|reflexivity|reflexivity|by left|reflexivity|by left|
       exact postgres_quote_inj].
Defined.

Lemma insert_query_witness :
  rangesOver map_to_list /\
  insertQuery (adapter := postgres) exampleCatalog map_to_list
    (employees (Cond [])) bob
  = Ok ("INSERT INTO " +:+ dquote +:+ "employee" +:+ dquote
          +:+ " (age, name) VALUES (?, ?) RETURNING id",
        [VInt 30; VString "Bob"]) /\
  exists cols kvs,
    length cols = size bob /\
    kvs ≡ₚ map_to_list bob /\
    [VInt 30; VString "Bob"] = kvs.*2 /\
    storageNames (exampleCatalog 0) kvs = Some cols.
Proof.
  split; [exact map_to_list_ranges|].
  assert (Hrun : insertQuery (adapter := postgres) exampleCatalog map_to_list
                   (employees (Cond [])) bob
                 = Ok ("INSERT INTO " +:+ dquote +:+ "employee" +:+ dquote
                         +:+ " (age, name) VALUES (?, ?) RETURNING id",
                       [VInt 30; VString "Bob"])) by (vm_compute; reflexivity).
  split; [exact Hrun|].
  destruct (proj2 (@insert_query postgres exampleCatalog map_to_list
                     (employees (Cond [])) bob map_to_list_ranges) _ _ Hrun)
    as (cols & kvs & _ & Hlen & _ & Hperm & Hvals & Hnames & _).
  exists cols, kvs.
  split; [exact Hlen|]. split; [exact Hperm|]. split; [exact Hvals|].
  exact Hnames.
Defined.

Lemma update_query_witness :
  rangesOver map_to_list /\
  bob ≠ ∅ /\
  updateQuery (adapter := postgres) exampleCatalog scalarIn sameNames map_to_list
    (employees named) bob
  = match storageNames (exampleCatalog 0) (map_to_list bob) with
    | None => Panic msgUnknownField
    | Some names =>
      match sqlWhereClause (adapter := postgres) exampleCatalog scalarIn
              sameNames (employees named) with
      | Panic m => Panic m
      | Ok (whereSQL, args) =>
        Ok ("UPDATE " +:+ quoteTableName (dbAdapter := postgres) "employee"
              +:+ " SET " +:+ Join ((fun n => n +:+ " = ?") <$> names) ", "
              +:+ " " +:+ whereSQL,
            (map_to_list bob).*2 ++ args)
      end
    end.
Proof.
  split; [exact map_to_list_ranges|].
  assert (Hne : bob ≠ ∅) by (unfold bob; apply insert_non_empty).
  split; [exact Hne|].
  apply (@update_query postgres exampleCatalog scalarIn sameNames map_to_list
           (employees named) bob map_to_list_ranges Hne).
Defined.

(** *** Further statements on the example catalog *)

Lemma postgres_text_ignores_args (op : DomainOperator) (a b : value) :
  fst (operatorSQL (dbAdapter := postgres) op a)
  = fst (operatorSQL (dbAdapter := postgres) op b).
Proof. by destruct op. Qed.

Lemma condition_args_in_order_witness :
  exists sql args,
    conditionSQLClause (adapter := postgres) exampleCatalog sameNames
      (employees (Cond []))
      (nestedCondition ["name"] ["age"] ["department_id"] true true)
    = Ok (sql, args) /\
    args = concat (map (leafArgs (adapter := postgres))
                     (params (nestedCondition ["name"] ["age"] ["department_id"]
                                true true))).
Proof.
  destruct (conditionSQLClause (adapter := postgres) exampleCatalog sameNames
              (employees (Cond []))
              (nestedCondition ["name"] ["age"] ["department_id"] true true))
    as [[sql args]|m] eqn:E; [|vm_compute in E; discriminate].
  exists sql, args. split; [reflexivity|].
  exact (@condition_args_in_order postgres exampleCatalog sameNames
           (employees (Cond [])) _ sql args E).
Defined.

Lemma where_iff_nodes_witness :
  exists sql args,
    conditionSQLClause (adapter := postgres) exampleCatalog sameNames
      (employees named) named = Ok (sql, args) /\
    forallb isScalar args = true /\
    (sql = "" <-> params named = []) /\
    sqlWhereClause (adapter := postgres) exampleCatalog scalarIn sameNames
      (employees named) = Ok ("WHERE " +:+ sql, args).
Proof.
  destruct (conditionSQLClause (adapter := postgres) exampleCatalog sameNames
              (employees named) named)
    as [[sql args]|m] eqn:E; [|vm_compute in E; discriminate].
  assert (Hs : forallb isScalar args = true).
  { vm_compute in E. injection E as <- <-. reflexivity. }
  exists sql, args. split; [reflexivity|]. split; [exact Hs|].
  exact (@where_iff_nodes postgres exampleCatalog scalarIn sameNames
           (employees named) sql args scalarIn_passes E Hs).
Defined.

Lemma condition_text_ignores_args_witness :
  textOf (conditionSQLClause (adapter := postgres) exampleCatalog sameNames
            (employees (Cond [])) named)
  = textOf (conditionSQLClause (adapter := postgres) exampleCatalog sameNames
              (employees (Cond []))
              (Cond (map (withArgs (VString "x' OR 1=1")) (params named)))).
Proof.
  exact (@condition_text_ignores_args postgres exampleCatalog sameNames
           (employees (Cond [])) named (VString "x' OR 1=1")
           postgres_text_ignores_args).
Defined.

Lemma field_expression_witness :
  exists joins j e,
    generateTableJoins (adapter := postgres) exampleCatalog (employees (Cond []))
      ["department_id"; "code"] = Ok joins /\
    last joins = Some j /\
    ["department_id"; "code"] !! (length joins - 1)%nat = Some e /\
    joinedFieldExpression (adapter := postgres) exampleCatalog
      (employees (Cond [])) ["department_id"; "code"] [true]
    = Ok (alias j +:+ "." +:+ e +:+ " AS "
            +:+ Join ["department_id"; "code"] sqlSep).
Proof.
  destruct (generateTableJoins (adapter := postgres) exampleCatalog
              (employees (Cond [])) ["department_id"; "code"])
    as [joins|m] eqn:E; [|vm_compute in E; discriminate].
  destruct (@field_expression postgres exampleCatalog (employees (Cond []))
              ["department_id"; "code"] [true]) as (_ & _ & H).
  destruct (H joins ltac:(discriminate) E) as (j & e & Hj & He & Hrun).
  exists joins, j, e. split; [reflexivity|]. split; [exact Hj|].
  split; [exact He|exact Hrun].
Defined.

Lemma segments_after_field_ignored_witness :
  employeeFields "no_such_field" = None /\
  generateTableJoins (adapter := postgres) exampleCatalog (employees (Cond []))
    ["name"; "no_such_field"]
  = Ok [rootJoin (adapter := postgres) exampleCatalog (employees (Cond []))] /\
  joinedFieldExpression (adapter := postgres) exampleCatalog
    (employees (Cond [])) ["name"; "no_such_field"] []
  = Ok (alias (rootJoin (adapter := postgres) exampleCatalog (employees (Cond [])))
          +:+ "." +:+ "name").
Proof.
  split; [reflexivity|].
  apply (@segments_after_field_ignored postgres exampleCatalog
           (employees (Cond [])) "name" ["no_such_field"]
           (FieldInfo "name" true None)); reflexivity.
Defined.

Lemma same_table_relations_share_alias_witness :
  alias (firstHop (adapter := postgres) mentorCatalog (employees (Cond []))
           "manager_id" (FieldInfo "manager_id" true (Some 0)) 0)
  = alias (firstHop (adapter := postgres) mentorCatalog (employees (Cond []))
             "mentor_id" (FieldInfo "mentor_id" false (Some 0)) 0) /\
  firstHop (adapter := postgres) mentorCatalog (employees (Cond []))
    "manager_id" (FieldInfo "manager_id" true (Some 0)) 0
  ≠ firstHop (adapter := postgres) mentorCatalog (employees (Cond []))
      "mentor_id" (FieldInfo "mentor_id" false (Some 0)) 0 /\
  tablesSQL (adapter := postgres) mentorCatalog exampleSQLString
    (employees (Cond [])) [["manager_id"; "name"]; ["mentor_id"; "name"]]
  = Ok (exampleSQLString
          (rootJoin (adapter := postgres) mentorCatalog (employees (Cond [])))
        +:+ exampleSQLString
              (firstHop (adapter := postgres) mentorCatalog (employees (Cond []))
                 "manager_id" (FieldInfo "manager_id" true (Some 0)) 0)).
Proof.
  apply (@same_table_relations_share_alias postgres mentorCatalog
           exampleSQLString (employees (Cond []))
           "manager_id" "mentor_id" "name" "name" [] []
           (FieldInfo "manager_id" true (Some 0))
           (FieldInfo "mentor_id" false (Some 0))
           (FieldInfo "name" true None) (FieldInfo "name" true None) 0 0);
    [reflexivity|reflexivity|reflexivity|by left|reflexivity|reflexivity|
     reflexivity|by left|reflexivity|discriminate|exact postgres_quote_inj].
Defined.

Lemma from_clause_order_witness :
  exists all,
    allJoins (adapter := postgres) exampleCatalog (employees (Cond []))
      [["department_id"; "name"]; ["manager_id"; "department_id"; "code"]]
    = Ok all /\
    length all = 5%nat /\
    length (firstByAlias [] all) = 4%nat /\
    dependsOn [] (firstByAlias [] all).
Proof.
  destruct (allJoins (adapter := postgres) exampleCatalog (employees (Cond []))
              [["department_id"; "name"]; ["manager_id"; "department_id"; "code"]])
    as [all|m] eqn:E; [|vm_compute in E; discriminate].
  destruct (@from_clause_order postgres exampleCatalog exampleSQLString
              (employees (Cond [])) _ all E) as (_ & Hd & _).
  exists all. split; [reflexivity|].
  vm_compute in E. injection E as <-.
  split; [reflexivity|]. split; [reflexivity|exact Hd].
Defined.

Lemma two_hops_witness :
  generateTableJoins (adapter := postgres) exampleCatalog (employees (Cond []))
    ["manager_id"; "department_id"; "code"]
  = Ok [rootJoin (adapter := postgres) exampleCatalog (employees (Cond []));
        firstHop (adapter := postgres) exampleCatalog (employees (Cond []))
          "manager_id" (FieldInfo "manager_id" true (Some 0)) 0;
        TableJoin (dquote +:+ "department" +:+ dquote) true false "id"
          (Some (firstHop (adapter := postgres) exampleCatalog (employees (Cond []))
                   "manager_id" (FieldInfo "manager_id" true (Some 0)) 0))
          "department_id"
          (dquote +:+ "employee__employee__department" +:+ dquote)].
Proof.
  apply (@two_hops postgres exampleCatalog (employees (Cond []))
           "manager_id" "department_id" "code" []
           (FieldInfo "manager_id" true (Some 0))
           (FieldInfo "department_id" false (Some 1))
           (FieldInfo "code" false None) 0 1);
    [reflexivity|reflexivity|reflexivity|reflexivity|reflexivity|by right].
Defined.

Lemma no_condition_all_rows_witness :
  deleteQuery (adapter := postgres) exampleCatalog scalarIn sameNames
    (employees (Cond []))
  = Ok ("DELETE FROM " +:+ dquote +:+ "employee" +:+ dquote +:+ " ", []) /\
  updateQuery (adapter := postgres) exampleCatalog scalarIn sameNames map_to_list
    (employees (Cond [])) bob
  = Ok ("UPDATE " +:+ dquote +:+ "employee" +:+ dquote
          +:+ " SET age = ?, name = ? ",
        [VInt 30; VString "Bob"]).
Proof.
  apply (@no_condition_all_rows postgres exampleCatalog scalarIn sameNames
           map_to_list (employees (Cond [])) bob ["age"; "name"]
           scalarIn_passes map_to_list_ranges eq_refl).
  - unfold bob. apply insert_non_empty.
  - reflexivity.
Defined.

(** X16. A limit or an offset that is zero or negative is left out of the
    clause without a panic: the clause is empty exactly when neither is
    positive, it is the LIMIT part alone or the OFFSET part alone when one
    of them is positive, and the LIMIT part followed by the OFFSET part when
    both are. *)
Theorem limit_offset_clause (q : Query) :
  (sqlLimitOffsetClause q = "" <-> (limit q <= 0)%Z /\ (offset q <= 0)%Z) /\
  ((0 < limit q)%Z -> (offset q <= 0)%Z ->
   sqlLimitOffsetClause q = "LIMIT " +:+ formatInt (limit q) +:+ " ") /\
  ((limit q <= 0)%Z -> (0 < offset q)%Z ->
   sqlLimitOffsetClause q = "OFFSET " +:+ formatInt (offset q) +:+ " ") /\
  ((0 < limit q)%Z -> (0 < offset q)%Z ->
   sqlLimitOffsetClause q
   = "LIMIT " +:+ formatInt (limit q) +:+ " OFFSET "
       +:+ formatInt (offset q) +:+ " ").
Proof.
  unfold sqlLimitOffsetClause.
  destruct (Z.ltb_spec 0 (limit q)) as [Hl|Hl],
           (Z.ltb_spec 0 (offset q)) as [Ho|Ho].
  - split; [split; [discriminate|lia]|].
    split; [lia|]. split; [lia|]. intros _ _. by normalize_text.
  - split; [split; [discriminate|lia]|].
    split; [done|]. split; lia.
  - split; [split; [discriminate|lia]|].
    split; [lia|]. split; [done|lia].
  - split; [done|]. split; [lia|]. split; lia.
Qed.

Lemma limit_offset_clause_witness :
  (0 < limit paged)%Z /\ (0 < offset paged)%Z /\
  sqlLimitOffsetClause paged = "LIMIT 10 OFFSET 20 ".
Proof.
  split; [reflexivity|]. split; [reflexivity|].
  apply (proj2 (proj2 (proj2 (limit_offset_clause paged)))); reflexivity.
Defined.

(** C10, counterexample to the claim as stated: in first position, a leaf
    on a name that is not a field of the model panics. *)
Lemma first_clause_panics_counterexample :
  employeeFields "salary" = None /\
  condValueSQLClause (adapter := postgres) exampleCatalog sameNames
    (employees (Cond [])) (Leaf ["salary"] OPERATOR_EQUALS (VInt 1) false false)
    [true] = Panic msgUnparsable.
Proof. split; reflexivity. Qed.

End QueriesSpec.

(** * Properties of the views collection *)

Module ViewsSpec.
Import Views.

(** C9, the code at a failing input. Adding a view of priority 1 and then a
    view of priority 5 of the same model leaves the slice of the model in
    the order 5, 1: the second view is put before the last view, not after
    it, the slice is not sorted, and the first view of the type is the one
    of priority 5. *)
Theorem AddView_breaks_order :
  exists vc,
    AddViews NewViewsCollection [lowView; highView] = (Ok tt, vc) /\
    ordered vc "Partner" = [highView; lowView] /\
    sortedByPriority (ordered vc "Partner") = false /\
    GetFirstViewForModel vc "Partner" "form" = Ok highView.
Proof.
  eexists. split; [vm_compute; reflexivity|].
  split; [vm_compute; reflexivity|].
  split; vm_compute; reflexivity.
Qed.

Local Open Scope Z_scope.

(** ** The insertion point *)

Lemma int8_small (i : Z) : 0 <= i < 128 -> int8 i = i.
Proof. intros H. unfold int8. rewrite Z.mod_small; lia. Qed.

Lemma int8_wrapped (i : Z) : 128 <= i < 256 -> int8 i = i - 256.
Proof.
  intros H. unfold int8.
  replace (i + 128) with ((i - 128) + 1 * 256) by lia.
  rewrite Z.mod_add by lia. rewrite Z.mod_small; lia.
Qed.

Lemma firstNotBelow_lt (vs : list View) (p : Z) (k : nat) :
  firstNotBelow vs p = Some k -> (k < length vs)%nat.
Proof.
  revert k. induction vs as [|w vs IH]; intros k H; cbn in H; [done|].
  destruct (Priority w >=? p); [simplify_eq; cbn; lia|].
  destruct (firstNotBelow vs p) as [k'|]; cbn in H; [|done].
  simplify_eq. specialize (IH k' eq_refl). cbn. lia.
Qed.

(** The value of [index] after the loop of [AddView]. *)
Lemma findIndex_spec (v : View) (vs : list View) :
  forall i index : Z,
    findIndex vs i index v
    = match firstNotBelow vs (Priority v) with
      | Some k => int8 (i + Z.of_nat k)
      | None =>
        match vs with
        | [] => index
        | _ :: _ => int8 (i + Z.of_nat (length vs) - 1)
        end
      end.
Proof.
  induction vs as [|w vs IH]; intros i index; [done|].
  cbn [findIndex firstNotBelow].
  destruct (Priority w >=? Priority v); [by rewrite Z.add_0_r|].
  rewrite IH. destruct (firstNotBelow vs (Priority v)) as [k|]; cbn [fmap option_fmap option_map].
  - f_equal. lia.
  - destruct vs as [|w' vs]; [cbn; f_equal; lia|].
    f_equal. cbn [length]. lia.
Qed.

Lemma findIndex_bounded (v : View) (vs : list View) :
  (length vs <= 128)%nat ->
  findIndex vs 0 0 v = Z.of_nat (insertionPoint vs (Priority v)).
Proof.
  intros Hlen. rewrite findIndex_spec. unfold insertionPoint.
  destruct (firstNotBelow vs (Priority v)) as [k|] eqn:E.
  - apply firstNotBelow_lt in E. rewrite int8_small; lia.
  - destruct vs as [|w vs]; [done|]. cbn [length] in *.
    rewrite int8_small; lia.
Qed.

Lemma insertionPoint_le (vs : list View) (p : Z) :
  (insertionPoint vs p <= length vs)%nat.
Proof.
  unfold insertionPoint. destruct (firstNotBelow vs p) as [k|] eqn:E; [|lia].
  apply firstNotBelow_lt in E. lia.
Qed.

(** What [AddView] does on a model of at most 128 views. *)
Lemma AddView_bounded (vc : ViewsCollection) (v : View) :
  (length (ordered vc (Model v)) <= 128)%nat ->
  AddView vc v
  = (Ok tt,
     MkViewsCollection (<[ID v := v]> (views vc))
       (<[Model v :=
            take (insertionPoint (ordered vc (Model v)) (Priority v))
                 (ordered vc (Model v))
            ++ v :: drop (insertionPoint (ordered vc (Model v)) (Priority v))
                         (ordered vc (Model v))]> (orderedViews vc))).
Proof.
  intros Hlen. unfold AddView.
  rewrite (findIndex_bounded v _ Hlen).
  change (ordered (MkViewsCollection (<[ID v := v]> (views vc)) (orderedViews vc))
            (Model v)) with (ordered vc (Model v)).
  pose proof (insertionPoint_le (ordered vc (Model v)) (Priority v)) as Hk.
  unfold sliceFrom, sliceTo.
  destruct (Z.ltb_spec (Z.of_nat (insertionPoint (ordered vc (Model v)) (Priority v))) 0);
    [lia|].
  destruct (Z.ltb_spec (Z.of_nat (length (ordered vc (Model v))))
              (Z.of_nat (insertionPoint (ordered vc (Model v)) (Priority v))));
    [lia|].
  cbn. rewrite Nat2Z.id. by rewrite <- app_assoc.
Qed.

Lemma firstNotBelow_None (vs : list View) (p : Z) :
  firstNotBelow vs p = None <-> Forall (fun w => Priority w < p) vs.
Proof.
  induction vs as [|w vs IH]; cbn; [by split|].
  destruct (Z.geb_spec (Priority w) p) as [Hge|Hlt].
  - split; [done|]. intros H. apply Forall_cons in H as [H _]. lia.
  - destruct (firstNotBelow vs p) as [k|]; cbn.
    + split; [done|]. intros H. apply Forall_cons in H as [_ H].
      by apply IH in H.
    + split; [|done]. intros _. constructor; [lia|]. by apply IH.
Qed.

Lemma firstNotBelow_Some (vs : list View) (p : Z) (k : nat) :
  firstNotBelow vs p = Some k ->
  Forall (fun w => Priority w < p) (take k vs) /\
  exists w, vs !! k = Some w /\ p <= Priority w.
Proof.
  revert k. induction vs as [|w vs IH]; intros k H; cbn in H; [done|].
  destruct (Z.geb_spec (Priority w) p) as [Hge|Hlt].
  - simplify_eq. split; [constructor|]. exists w. split; [done|lia].
  - destruct (firstNotBelow vs p) as [k'|]; cbn in H; [|done]. simplify_eq.
    destruct (IH k' eq_refl) as [Hb (w' & Hw' & Hp)].
    split; [cbn; constructor; [lia|done]|]. by exists w'.
Qed.

Lemma sorted_cons (w : View) (vs : list View) :
  sortedByPriority (w :: vs) = true <->
  (match vs with [] => True | w' :: _ => Priority w <= Priority w' end) /\
  sortedByPriority vs = true.
Proof.
  destruct vs as [|w' vs]; cbn [sortedByPriority]; [by split|].
  rewrite andb_true_iff, Z.leb_le. done.
Qed.

Lemma sorted_insert (v : View) (vs : list View) :
  forall k : nat,
    sortedByPriority vs = true ->
    firstNotBelow vs (Priority v) = Some k ->
    sortedByPriority (take k vs ++ v :: drop k vs) = true.
Proof.
  induction vs as [|w vs IH]; intros k Hs Hk; cbn in Hk; [done|].
  destruct (Z.geb_spec (Priority w) (Priority v)) as [Hge|Hlt].
  - simplify_eq. cbn [take drop app]. apply sorted_cons. split; [lia|done].
  - destruct (firstNotBelow vs (Priority v)) as [k'|] eqn:E; cbn in Hk; [|done].
    simplify_eq. cbn [take drop app].
    apply sorted_cons in Hs as [Hhd Hs].
    apply sorted_cons. split; [|by apply IH].
    destruct vs as [|w' vs]; [done|].
    destruct k' as [|k']; cbn; [lia|exact Hhd].
Qed.

Lemma ordered_insert (vws : gmap string View) (ov : gmap string (list View))
    (m : string) (l : list View) :
  ordered (MkViewsCollection vws (<[m := l]> ov)) m = l.
Proof. unfold ordered. cbn. by rewrite lookup_insert_eq. Qed.

(** X1. On a model of at most 128 views, [AddView] succeeds; the slice of
    the model then holds the new view and the views it held, each as often
    as before, the slices of the other models are as they were, and the
    view is found under its id while the other ids are as they were. *)
Theorem AddView_keeps_views (vc : ViewsCollection) (v : View) :
  (length (ordered vc (Model v)) <= 128)%nat ->
  exists vc',
    AddView vc v = (Ok tt, vc') /\
    ordered vc' (Model v) ≡ₚ v :: ordered vc (Model v) /\
    (forall m, m ≠ Model v -> ordered vc' m = ordered vc m) /\
    GetViewById vc' (ID v) = Some v /\
    (forall id, id ≠ ID v -> GetViewById vc' id = GetViewById vc id).
Proof.
  intros Hlen. eexists. split; [by apply AddView_bounded|].
  split; [|split; [|split]].
  - rewrite ordered_insert, <- Permutation_middle. by rewrite take_drop.
  - intros m Hm. unfold ordered. cbn [orderedViews].
    by rewrite lookup_insert_ne.
  - unfold GetViewById. cbn [views]. apply lookup_insert_eq.
  - intros id Hid. unfold GetViewById. cbn [views]. by rewrite lookup_insert_ne.
Qed.

Lemma AddView_keeps_views_witness :
  exists vc',
    AddView (AddView NewViewsCollection lowView).2 highView = (Ok tt, vc') /\
    ordered vc' "Partner" ≡ₚ [highView; lowView] /\
    GetViewById vc' "partner_form_full" = Some highView.
Proof.
  destruct (AddView_keeps_views (AddView NewViewsCollection lowView).2 highView)
    as (vc' & Hrun & Hperm & _ & Hid & _); [apply Nat.leb_le; reflexivity|].
  exists vc'. split; [exact Hrun|]. split; [exact Hperm|exact Hid].
Defined.

(** X2. On a model of at most 128 views sorted by priority, one of which
    has a priority not below that of the new view, [AddView] puts the new
    view just before the first such view, after views of lower priority
    only, and the slice stays sorted. *)
Theorem AddView_sorted (vc : ViewsCollection) (v : View) (k : nat) :
  (length (ordered vc (Model v)) <= 128)%nat ->
  sortedByPriority (ordered vc (Model v)) = true ->
  firstNotBelow (ordered vc (Model v)) (Priority v) = Some k ->
  exists vc' w,
    AddView vc v = (Ok tt, vc') /\
    ordered vc' (Model v)
      = take k (ordered vc (Model v)) ++ v :: drop k (ordered vc (Model v)) /\
    Forall (fun u => Priority u < Priority v) (take k (ordered vc (Model v))) /\
    ordered vc (Model v) !! k = Some w /\
    Priority v <= Priority w /\
    sortedByPriority (ordered vc' (Model v)) = true.
Proof.
  intros Hlen Hs Hk.
  destruct (firstNotBelow_Some _ _ _ Hk) as [Hbelow (w & Hw & Hp)].
  eexists _, w. split; [by apply AddView_bounded|].
  rewrite !ordered_insert. unfold insertionPoint. rewrite Hk.
  split; [done|]. split; [done|]. split; [done|]. split; [done|].
  by apply sorted_insert.
Qed.

Lemma AddView_sorted_witness :
  exists vc' w,
    AddView (AddView NewViewsCollection highView).2 lowView = (Ok tt, vc') /\
    ordered vc' "Partner" = [lowView; highView] /\
    w = highView /\
    sortedByPriority (ordered vc' "Partner") = true.
Proof.
  destruct (AddView_sorted (AddView NewViewsCollection highView).2 lowView 0)
    as (vc' & w & Hrun & Hord & _ & Hw & _ & Hs);
    [apply Nat.leb_le; reflexivity|reflexivity|reflexivity|].
  exists vc', w. split; [exact Hrun|]. split; [exact Hord|].
  split; [|exact Hs]. vm_compute in Hw. injection Hw as <-. reflexivity.
Defined.

(** X3. On a model of at most 128 views, all of a priority below that of
    the new view, [AddView] puts the new view before the last view of the
    slice, not after it: the last two views of the slice are then in
    decreasing order of priority. *)
Theorem AddView_before_last (vc : ViewsCollection) (v : View) :
  (length (ordered vc (Model v)) <= 128)%nat ->
  ordered vc (Model v) ≠ [] ->
  Forall (fun w => Priority w < Priority v) (ordered vc (Model v)) ->
  exists vc' front w,
    ordered vc (Model v) = front ++ [w] /\
    AddView vc v = (Ok tt, vc') /\
    ordered vc' (Model v) = front ++ [v; w] /\
    Priority w < Priority v.
Proof.
  intros Hlen Hne Hall.
  destruct (exists_last Hne) as (front & w & Eo).
  assert (Hw : Priority w < Priority v).
  { rewrite Eo in Hall. apply Forall_app in Hall as [_ Hw].
    exact (Forall_inv Hw). }
  eexists _, front, w. split; [done|].
  split; [by apply AddView_bounded|].
  split; [|done].
  rewrite ordered_insert. unfold insertionPoint.
  apply firstNotBelow_None in Hall. rewrite Hall, Eo.
  rewrite length_app. cbn [length].
  replace (length front + 1 - 1)%nat with (length front) by lia.
  by rewrite take_app_length, drop_app_length.
Qed.

Lemma AddView_before_last_witness :
  exists vc' front w,
    ordered (AddView NewViewsCollection lowView).2 "Partner" = front ++ [w] /\
    AddView (AddView NewViewsCollection lowView).2 highView = (Ok tt, vc') /\
    ordered vc' "Partner" = front ++ [highView; w] /\
    Priority w < Priority highView.
Proof.
  apply (AddView_before_last (AddView NewViewsCollection lowView).2 highView).
  - apply Nat.leb_le. reflexivity.
  - discriminate.
  - repeat constructor.
Defined.

(** X4. On a model of 129 to 256 views, all of a priority below that of
    the new view, the [int8] index of [AddView] wraps around to a negative
    number and the slicing panics; the view is by then stored under its id,
    and the slice of the model is as it was. *)
Theorem AddView_index_overflow (vc : ViewsCollection) (v : View) :
  (129 <= length (ordered vc (Model v)) <= 256)%nat ->
  Forall (fun w => Priority w < Priority v) (ordered vc (Model v)) ->
  AddView vc v
  = (Panic msgSlice,
     MkViewsCollection (<[ID v := v]> (views vc)) (orderedViews vc)).
Proof.
  intros Hlen Hall. unfold AddView. rewrite findIndex_spec.
  apply firstNotBelow_None in Hall. rewrite Hall.
  change (ordered (MkViewsCollection (<[ID v := v]> (views vc)) (orderedViews vc))
            (Model v)) with (ordered vc (Model v)).
  destruct (ordered vc (Model v)) as [|w vs] eqn:Eo; [cbn in Hlen; lia|].
  rewrite int8_wrapped by (cbn [length] in *; lia).
  unfold sliceFrom.
  destruct (Z.ltb_spec (0 + Z.of_nat (length (w :: vs)) - 1 - 256) 0) as [_|Hge];
    [done|].
  cbn [length] in *. lia.
Qed.

Lemma AddView_index_overflow_witness :
  (129 <= length (ordered crowded (Model highView)) <= 256)%nat /\
  AddView crowded highView
  = (Panic msgSlice,
     MkViewsCollection (<[ID highView := highView]> (views crowded))
       (orderedViews crowded)).
Proof.
  assert (Hlen : (129 <= length (ordered crowded (Model highView)) <= 256)%nat).
  { split; apply Nat.leb_le; reflexivity. }
  split; [exact Hlen|].
  apply (AddView_index_overflow crowded highView Hlen).
  change (ordered crowded (Model highView)) with (replicate 129 lowView).
  apply Forall_replicate. reflexivity.
Defined.

(** X5. [GetFirstViewForModel] returns the first view of the slice of the
    model that has the type asked for, and panics exactly when the slice
    has no view of this type. *)
Theorem GetFirstViewForModel_first (vc : ViewsCollection) (model : string)
    (viewType : ViewType) :
  match GetFirstViewForModel vc model viewType with
  | Ok w =>
    exists pre post,
      ordered vc model = pre ++ w :: post /\
      Type_ w = viewType /\
      Forall (fun u => Type_ u ≠ viewType) pre
  | Panic m =>
    m = msgNoView /\ Forall (fun u => Type_ u ≠ viewType) (ordered vc model)
  end.
Proof.
  unfold GetFirstViewForModel.
  induction (ordered vc model) as [|u vs IH]; cbn [find]; [by split|].
  case_bool_decide as Hu.
  - exists [], vs. by repeat split.
  - destruct (find _ vs) as [w|].
    + destruct IH as (pre & post & -> & Hw & Hpre).
      exists (u :: pre), post. split; [done|]. split; [done|].
      by constructor.
    + destruct IH as [Hm Hall]. split; [done|]. by constructor.
Qed.

(** X6. A reference made by [MakeViewRef] is read back by [Scan] from the
    value [Value] stores, as text or as bytes: always when its view is
    registered, and for an id that is not, when no view is registered under
    the empty id. *)
Theorem ViewRef_round_trip (registry : ViewsCollection) (id : string)
    (vr : ViewRef) :
  is_Some (GetViewById registry id) \/ GetViewById registry "" = None ->
  Scan registry vr (SrcString (Value (MakeViewRef registry id)))
    = (None, MakeViewRef registry id) /\
  Scan registry vr (SrcBytes (Value (MakeViewRef registry id)))
    = (None, MakeViewRef registry id).
Proof.
  intros H. unfold Scan, Value.
  assert (E : MakeViewRef registry (MakeViewRef registry id).1
              = MakeViewRef registry id); [|by rewrite E].
  unfold MakeViewRef at 2 3.
  destruct (GetViewById registry id) as [view|] eqn:Ev; cbn [fst].
  - unfold MakeViewRef. by rewrite Ev.
  - destruct H as [[? ?]|H]; [done|]. unfold MakeViewRef. by rewrite H.
Qed.

Lemma ViewRef_round_trip_witness :
  MakeViewRef oneView "partner_form" = ("partner_form", "Partner") /\
  Scan oneView ("", "") (SrcString (Value (MakeViewRef oneView "partner_form")))
    = (None, MakeViewRef oneView "partner_form") /\
  Scan oneView ("", "") (SrcBytes (Value (MakeViewRef oneView "partner_form")))
    = (None, MakeViewRef oneView "partner_form").
Proof.
  split; [reflexivity|].
  apply (ViewRef_round_trip oneView "partner_form" ("", "")).
  left. by exists lowView.
Defined.

End ViewsSpec.
